(** * Health-check registry and dispatcher (package [health], handler.go)

    A shallow embedding of [checksHandler] and of the request evaluation
    [handle], together with the properties of the specification that
    concern them.

    Conventions of the embedding.
    - A Go [string] is a [string] of bytes; [s[0]] is [index s 0] and
      panics out of range.
    - A Go [map[string]Check] is a [gmap string Check].  The order in
      which a [range] statement visits a map is not specified by the
      language; it is supplied by an oracle [visit] that returns some
      enumeration of the map (see [range_order]).
    - A check function may read and change state owned by its caller
      (a counter, a connection).  That state is the type [W]; a check is
      a function from [W] to a result and a new [W].
    - Every call of a check is recorded in [calls] (name and result), in
      the order of the calls.
    - A logger is a sink: a call of [Warn] or [Error] appends one
      [log_record] to the diagnostics of the operation.
    - A run-time panic is the [Panicked] outcome.
    - The operations are taken one at a time: [lock] serialises the
      registrations against the evaluations, and it is not modelled. *)

From Stdlib Require Import ZArith Ascii.
From stdpp Require Import gmap strings list fin_maps.

Local Open Scope Z_scope.

(** ** Outcomes: a returned value or a panic *)

Inductive panic : Type :=
  | IndexOutOfRange (i len : nat)
  | PanicMessage (msg : string).

Inductive outcome (A : Type) : Type :=
  | Returned (a : A)
  | Panicked (p : panic).
Arguments Returned {A} a.
Arguments Panicked {A} p.

#[global] Instance outcome_ret : MRet outcome := λ A a, Returned a.
#[global] Instance outcome_bind : MBind outcome := λ A B k m,
  match m with
  | Returned a => k a
  | Panicked p => Panicked p
  end.

Definition panics {A} (o : outcome A) : Prop := ∃ p, o = Panicked p.

(** [s[i]] on a Go string: the byte at [i], or the run-time panic
    "index out of range [i] with length len(s)". *)
Definition index (s : string) (i : nat) : outcome ascii :=
  match String.get i s with
  | Some c => Returned c
  | None => Panicked (IndexOutOfRange i (String.length s))
  end.

(** ** net/http constants *)

Definition MethodGet : string := "GET".
Definition StatusOK : Z := 200.
Definition StatusMethodNotAllowed : Z := 405.
Definition StatusServiceUnavailable : Z := 503.

Definition StatusText (code : Z) : string :=
  if decide (code = StatusOK) then "OK"
  else if decide (code = StatusMethodNotAllowed) then "Method Not Allowed"
  else if decide (code = StatusServiceUnavailable) then "Service Unavailable"
  else "".

(** ** The response writer

    [code = None] until the header is written.  [WriteHeader] on a
    response whose header is already written changes nothing. *)

Record ResponseWriter : Type := {
  header : list (string * string);
  code : option Z;
  body : string
}.

Definition NewRecorder : ResponseWriter :=
  {| header := []; code := None; body := "" |}.

Definition HeaderSet (rw : ResponseWriter) (k v : string) : ResponseWriter :=
  {| header := (k, v) :: filter (λ kv, kv.1 ≠ k) (header rw);
     code := code rw; body := body rw |}.

Definition WriteHeader (rw : ResponseWriter) (status : Z) : ResponseWriter :=
  match code rw with
  | Some _ => rw
  | None => {| header := header rw; code := Some status; body := body rw |}
  end.

Definition Fprintln (rw : ResponseWriter) (s : string) : ResponseWriter :=
  let rw := WriteHeader rw StatusOK in
  {| header := header rw; code := code rw;
     body := body rw +:+ s +:+ String "010"%char "" |}.

(** [http.Error]: content type, status line, then the text and a newline.
    Header fields set before are kept; later versions of net/http delete
    some of them first. *)
Definition Error (rw : ResponseWriter) (error : string) (status : Z)
  : ResponseWriter :=
  let rw := HeaderSet rw "Content-Type" "text/plain; charset=utf-8" in
  let rw := HeaderSet rw "X-Content-Type-Options" "nosniff" in
  let rw := WriteHeader rw status in
  Fprintln rw error.

(** ** logrus: loggers, entries, records *)

Inductive Writer : Type :=
  | Discard
  | Sink (id : nat).

#[global] Instance Writer_eq_dec : EqDecision Writer.
Proof. solve_decision. Defined.

Record Logger : Type := { Out : Writer }.

(** An entry that holds a logger, as [NewEntry] and [WithFields] of
    logrus make them.  The field is a pointer in the code and may be
    nil in an entry made by hand; module [Nilable] below has the entry
    with that case and [handle] on it. *)
Record Entry : Type := { entry_Logger : Logger }.

Inductive Level : Type := WarnLevel | ErrorLevel.

Record log_record : Type := {
  log_to : Logger;
  log_level : Level;
  log_message : string;
  log_fields : list (string * string);
  log_error : option string
}.

(** [logger.WithFields(fields).Warn(msg)] when [logger != nil]. *)
Definition Warn (logger : option Logger) (fields : list (string * string))
    (msg : string) : list log_record :=
  match logger with
  | None => []
  | Some l => [ {| log_to := l; log_level := WarnLevel; log_message := msg;
                   log_fields := fields; log_error := None |} ]
  end.

(** [logger.WithFields(fields).WithError(err).Error(msg)] when
    [logger != nil]. *)
Definition LogError (logger : option Logger) (fields : list (string * string))
    (err : string) (msg : string) : list log_record :=
  match logger with
  | None => []
  | Some l => [ {| log_to := l; log_level := ErrorLevel; log_message := msg;
                   log_fields := fields; log_error := Some err |} ]
  end.

(** [ctxlogrus.Extract]: the entry the request context carries, or an
    entry of the package's null logger, whose output is [Discard]. *)
Definition nullLogger : Logger := {| Out := Discard |}.

Definition Extract (ctx : option Entry) : option Entry :=
  match ctx with
  | Some e => Some e
  | None => Some {| entry_Logger := nullLogger |}
  end.

(** ** Requests *)

Record Request : Type := {
  Method : string;
  RawPath : string;
  Context : option Entry
}.

Section Health.

(** The state the registered check functions act on. *)
Context {W : Type}.

(** Modelled from the spec: the declaration of type [Check] is in a file
    of the package that is not part of the sources at hand.  The spec
    gives "a zero-argument operation that returns either success or a
    failure reason (an error value)"; handler.go compares a [Check] with
    [nil] and calls it.  [None] is the nil function value; the result
    [None] of a call is the nil error, [Some reason] an error. *)
Definition Check : Type := option (W → option string * W).

(** ** The registry *)

Record checksHandler : Type := {
  livenessPath : string;
  livenessChecks : gmap string Check;
  readinessPath : string;
  readinessChecks : gmap string Check;
  failFast : bool;
  logger : option Logger
}.

Definition newChecksHandler (healthPath readyPath : string)
  : outcome checksHandler :=
  c ← index healthPath 0;
  let healthPath :=
    if decide (c ≠ "/"%char) then "/" +:+ healthPath else healthPath in
  c ← index readyPath 0;
  let readyPath :=
    if decide (c ≠ "/"%char) then "/" +:+ readyPath else readyPath in
  mret {| livenessPath := healthPath;
          livenessChecks := ∅;
          readinessPath := readyPath;
          readinessChecks := ∅;
          failFast := false;
          logger := None |}.

Definition NewChecksHandler (healthPath readyPath : string)
  : outcome checksHandler :=
  newChecksHandler healthPath readyPath.

Definition NewChecksHandlerWithOptions (healthPath readyPath : string)
    (options : list (checksHandler → checksHandler)) : outcome checksHandler :=
  ch ← newChecksHandler healthPath readyPath;
  mret (foldl (λ ch option, option ch) ch options).

Definition SetFailFast (ch : checksHandler) (b : bool) : checksHandler :=
  {| livenessPath := livenessPath ch;
     livenessChecks := livenessChecks ch;
     readinessPath := readinessPath ch;
     readinessChecks := readinessChecks ch;
     failFast := b;
     logger := logger ch |}.

Definition GetFailFast (ch : checksHandler) : bool := failFast ch.

Definition WithLogger (l : option Logger) : checksHandler → checksHandler :=
  λ c, {| livenessPath := livenessPath c;
          livenessChecks := livenessChecks c;
          readinessPath := readinessPath c;
          readinessChecks := readinessChecks c;
          failFast := failFast c;
          logger := l |}.

Definition path_fields (ch : checksHandler) : list (string * string) :=
  [("liveness_path", livenessPath ch); ("readiness_path", readinessPath ch)].

(** [AddLiveness] and [AddReadiness] return the updated registry and the
    diagnostics written.  Both log the same message text. *)
Definition AddLiveness (ch : checksHandler) (name : string) (check : Check)
  : checksHandler * list log_record :=
  let diag := Warn (logger ch) (path_fields ch ++ [("name", name)])
                   "adding liveness check" in
  ({| livenessPath := livenessPath ch;
      livenessChecks := <[name := check]> (livenessChecks ch);
      readinessPath := readinessPath ch;
      readinessChecks := readinessChecks ch;
      failFast := failFast ch;
      logger := logger ch |}, diag).

Definition AddReadiness (ch : checksHandler) (name : string) (check : Check)
  : checksHandler * list log_record :=
  let diag := Warn (logger ch) (path_fields ch ++ [("name", name)])
                   "adding liveness check" in
  ({| livenessPath := livenessPath ch;
      livenessChecks := livenessChecks ch;
      readinessPath := readinessPath ch;
      readinessChecks := <[name := check]> (readinessChecks ch);
      failFast := failFast ch;
      logger := logger ch |}, diag).

(** ** Routing: [http.ServeMux]

    Registration as net/http documents it: [HandleFunc] panics on an
    empty pattern and on a pattern that is already registered.  The
    handler stored is the bound method, named by [endpoint].  Later
    versions of net/http refuse more patterns (malformed ones, and
    ones that conflict with a registered pattern without being equal
    to it); the properties below that rest on [HandleFunc] are those
    that hold for both: a panic on equal patterns, and what is true
    once the registration has returned. *)

Inductive endpoint : Type := ReadyEndpoint | HealthEndpoint.

Definition NewServeMux : gmap string endpoint := ∅.

Definition HandleFunc (mux : gmap string endpoint) (pattern : string)
    (handler : endpoint) : outcome (gmap string endpoint) :=
  if decide (pattern = "") then
    Panicked (PanicMessage "http: invalid pattern")
  else match mux !! pattern with
       | Some _ =>
           Panicked (PanicMessage ("http: multiple registrations for " +:+ pattern))
       | None => Returned (<[pattern := handler]> mux)
       end.

Definition registerMux (ch : checksHandler) (mux : gmap string endpoint)
  : outcome (gmap string endpoint) * list log_record :=
  let diag := Warn (logger ch) (path_fields ch)
                   "registering endpoints for health checker" in
  (mux ← HandleFunc mux (readinessPath ch) ReadyEndpoint;
   HandleFunc mux (livenessPath ch) HealthEndpoint, diag).

Definition Handler (ch : checksHandler)
  : outcome (gmap string endpoint) * list log_record :=
  let diag := Warn (logger ch) (path_fields ch)
                   "creating new ServeMux for health checker" in
  let mux := NewServeMux in
  let '(mux, diag') := registerMux ch mux in
  (mux, diag ++ diag').

Definition RegisterHandler (ch : checksHandler) (mux : gmap string endpoint)
  : outcome (gmap string endpoint) * list log_record :=
  let diag := Warn (logger ch) (path_fields ch)
                   "registering ServeMux for health checker" in
  let '(mux, diag') := registerMux ch mux in
  (mux, diag ++ diag').

(** ** Request evaluation *)

Definition checkLogger (logger : option Entry) : option Entry * bool :=
  match logger with
  | None => (logger, false)
  | Some e =>
      if decide (Out (entry_Logger e) = Discard) then (logger, false)
      else (logger, true)
  end.

(** The local variables of [handle] that the loops change, the state of
    the checks, and the record of the calls made. *)
Record evaluation : Type := {
  status : Z;
  errors : gmap string string;
  world : W;
  calls : list (string * option string);
  diagnostics : list log_record
}.

(** How a loop body or a loop ends: it goes on to what follows it, or
    the function returns from inside it. *)
Inductive control : Type :=
  | Next (st : evaluation)
  | Return (st : evaluation).

(** What [handle] leaves behind: the response, the failure mapping when
    aggregation took place, the state of the checks, the calls made and
    the diagnostics written. *)
Record handled : Type := {
  response : ResponseWriter;
  failures : option (gmap string string);
  final : W;
  invoked : list (string * option string);
  written : list log_record
}.

Section Handle.

Variable ch : checksHandler.
Variable r : Request.
(** The logger selected for this request. *)
Variable lg : option Logger.

Definition request_fields : list (string * string) :=
  path_fields ch ++ [("url", RawPath r)].

(** [for name, check := range checks { ... }] over the entries in the
    order visited. *)
Fixpoint range_checks (entries : list (string * Check)) (st : evaluation)
  : control :=
  match entries with
  | [] => Next st
  | (name, check) :: entries =>
      match check with
      | None => range_checks entries st
      | Some f =>
          let '(err, w) := f (world st) in
          let st := {| status := status st; errors := errors st; world := w;
                       calls := calls st ++ [(name, err)];
                       diagnostics := diagnostics st |} in
          match err with
          | None => range_checks entries st
          | Some e =>
              let st := {| status := StatusServiceUnavailable;
                           errors := <[name := e]> (errors st);
                           world := world st;
                           calls := calls st;
                           diagnostics := diagnostics st ++
                             LogError lg request_fields e
                                      "health check returned error" |} in
              if failFast ch then Return st
              else range_checks entries st
          end
      end
  end.

(** [for _, checks := range checksSets { ... }]. *)
Fixpoint range_sets (visit : gmap string Check → list (string * Check))
    (checksSets : list (gmap string Check)) (st : evaluation) : control :=
  match checksSets with
  | [] => Next st
  | checks :: checksSets =>
      match range_checks (visit checks) st with
      | Next st => range_sets visit checksSets st
      | Return st => Return st
      end
  end.

End Handle.

(** [visit] is the order in which the [range] statements of one request
    go through a map. *)
Definition handle (visit : gmap string Check → list (string * Check))
    (ch : checksHandler) (rw : ResponseWriter) (r : Request)
    (checksSets : list (gmap string Check)) (w : W) : handled :=
  let logger := logger ch in
  let logger :=
    match checkLogger (Extract (Context r)) with
    | (Some ctxLogger, true) => Some (entry_Logger ctxLogger)
    | _ => logger
    end in
  if decide (Method r ≠ MethodGet) then
    {| response := Error rw (StatusText StatusMethodNotAllowed)
                         StatusMethodNotAllowed;
       failures := None;
       final := w;
       invoked := [];
       written := Warn logger (request_fields ch r) "received non-GET request" |}
  else
    let st := {| status := StatusOK; errors := ∅; world := w; calls := [];
                 diagnostics := [] |} in
    match range_sets ch r logger visit checksSets st with
    | Return st
    | Next st =>
        {| response := WriteHeader rw (status st);
           failures := Some (errors st);
           final := world st;
           invoked := calls st;
           written := diagnostics st |}
    end.

Definition healthEndpoint visit (ch : checksHandler) (rw : ResponseWriter)
    (r : Request) (w : W) : handled :=
  handle visit ch rw r [livenessChecks ch] w.

Definition readyEndpoint visit (ch : checksHandler) (rw : ResponseWriter)
    (r : Request) (w : W) : handled :=
  handle visit ch rw r [readinessChecks ch] w.

(** A [range] over a map visits every entry once, in some order. *)
Definition range_order (visit : gmap string Check → list (string * Check))
  : Prop :=
  ∀ m, visit m ≡ₚ map_to_list m.

(** ** Sequences of registrations *)

Inductive registration : Type :=
  | Liveness (name : string) (check : Check)
  | Readiness (name : string) (check : Check).

Definition register (ch : checksHandler) (reg : registration) : checksHandler :=
  match reg with
  | Liveness name check => (AddLiveness ch name check).1
  | Readiness name check => (AddReadiness ch name check).1
  end.

Definition register_all (ch : checksHandler) (regs : list registration)
  : checksHandler :=
  foldl register ch regs.

Definition is_liveness (reg : registration) : bool :=
  match reg with Liveness _ _ => true | Readiness _ _ => false end.

Definition is_readiness (reg : registration) : bool :=
  match reg with Liveness _ _ => false | Readiness _ _ => true end.

(** ** Vocabulary of the properties *)

(** The names of the entries whose check is not nil, in the order of the
    entries. *)
Fixpoint checked (entries : list (string * Check)) : list string :=
  match entries with
  | [] => []
  | (name, None) :: entries => checked entries
  | (name, Some _) :: entries => name :: checked entries
  end.

(** A check that reports a failure whenever it is called. *)
Definition failing (f : W → option string * W) : Prop :=
  ∀ w, (f w).1 ≠ None.

(** How many calls of the check registered under [name] were made. *)
Definition times_invoked (name : string) (cs : list (string * option string))
  : nat :=
  length (filter (λ c, c.1 = name) cs).

(** What a client and the owner of the checks can observe of a request:
    the response, the state of the checks and the calls made. *)
Definition http_behaviour (res : handled)
  : ResponseWriter * W * list (string * option string)
    * option (gmap string string) :=
  (response res, final res, invoked res, failures res).

Definition WithContext (ctx : option Entry) (r : Request) : Request :=
  {| Method := Method r; RawPath := RawPath r; Context := ctx |}.

Definition starts_with_slash (s : string) : Prop :=
  String.get 0 s = Some "/"%char.

(** The check set an endpoint evaluates, and the dispatch of a request
    to the endpoint the router selected. *)
Definition active (ch : checksHandler) (ep : endpoint) : gmap string Check :=
  match ep with
  | HealthEndpoint => livenessChecks ch
  | ReadyEndpoint => readinessChecks ch
  end.

Definition serve visit (ch : checksHandler) (ep : endpoint)
    (rw : ResponseWriter) (r : Request) (w : W) : handled :=
  match ep with
  | HealthEndpoint => healthEndpoint visit ch rw r w
  | ReadyEndpoint => readyEndpoint visit ch rw r w
  end.

(** The logger [handle] selects for a request. *)
Definition request_logger (ch : checksHandler) (r : Request) : option Logger :=
  match checkLogger (Extract (Context r)) with
  | (Some ctxLogger, true) => Some (entry_Logger ctxLogger)
  | _ => logger ch
  end.

(** The evaluation [handle] starts from, and the one a loop ends with. *)
Definition start (w : W) : evaluation :=
  {| status := StatusOK; errors := ∅; world := w; calls := [];
     diagnostics := [] |}.

Definition ended (c : control) : evaluation :=
  match c with Next st | Return st => st end.

(** Two evaluations that differ at most in the diagnostics written. *)
Definition agree (st1 st2 : evaluation) : Prop :=
  status st1 = status st2 ∧ errors st1 = errors st2 ∧
  world st1 = world st2 ∧ calls st1 = calls st2.

Definition control_agree (c1 c2 : control) : Prop :=
  match c1, c2 with
  | Next st1, Next st2 | Return st1, Return st2 => agree st1 st2
  | _, _ => False
  end.

(** The check sets after a sequence of registrations, each as a function
    of the set before and of the registrations alone. *)
Definition liveness_after (m : gmap string Check) (regs : list registration)
  : gmap string Check :=
  foldl (λ m reg, match reg with
                  | Liveness name check => <[name := check]> m
                  | Readiness _ _ => m
                  end) m regs.

Definition readiness_after (m : gmap string Check) (regs : list registration)
  : gmap string Check :=
  foldl (λ m reg, match reg with
                  | Liveness _ _ => m
                  | Readiness name check => <[name := check]> m
                  end) m regs.

(** ** Vocabulary of the further properties *)

(** The operations on a registry, and a sequence of them in any order. *)
Inductive operation : Type :=
  | Register (reg : registration)
  | FailFast (b : bool)
  | UseLogger (l : option Logger).

Definition operate (ch : checksHandler) (op : operation) : checksHandler :=
  match op with
  | Register reg => register ch reg
  | FailFast b => SetFailFast ch b
  | UseLogger l => WithLogger l ch
  end.

Definition operate_all (ch : checksHandler) (ops : list operation)
  : checksHandler :=
  foldl operate ch ops.

(** The registration of [check] under [name] in the set of an endpoint. *)
Definition registration_in (ep : endpoint) (name : string) (check : Check)
  : registration :=
  match ep with
  | HealthEndpoint => Liveness name check
  | ReadyEndpoint => Readiness name check
  end.

(** A check that reports success whenever it is called. *)
Definition succeeding (f : W → option string * W) : Prop :=
  ∀ w, (f w).1 = None.

(** The failure mapping that a sequence of calls leaves: every failed
    call stores its reason under its name. *)
Definition record_failures (m : gmap string string)
    (cs : list (string * option string)) : gmap string string :=
  foldl (λ m c, match c.2 with
                | Some e => <[c.1 := e]> m
                | None => m
                end) m cs.

(** The records a sequence of calls makes the logger write. *)
Definition error_records (lg : option Logger) (fields : list (string * string))
    (cs : list (string * option string)) : list log_record :=
  flat_map (λ c, match c.2 with
                 | Some e => LogError lg fields e "health check returned error"
                 | None => []
                 end) cs.

(** Replays a record of calls on the checks of [m], from the state [w]:
    the state reached, when every call is a call of the check registered
    under its name and has the result recorded. *)
Fixpoint replay (m : gmap string Check) (w : W)
    (cs : list (string * option string)) : option W :=
  match cs with
  | [] => Some w
  | (name, e) :: cs =>
      match m !! name with
      | Some (Some f) =>
          let '(e', w') := f w in
          if decide (e' = e) then replay m w' cs else None
      | _ => None
      end
  end.

End Health.

(** ** The entry of a request context with a nil logger

    [ctxlogrus.Extract] returns a [*logrus.Entry], and the field [Logger]
    of an entry is a pointer.  [checkLogger] tests the entry against nil
    and reads [logger.Logger.Out] without a test of [logger.Logger].
    Here the field is an [option], the request carries such an entry,
    and [checkLogger] and [handle] are as in the code, with the panic of
    the nil dereference.  [nilable_request] embeds the requests above,
    whose entries hold a logger. *)

(** What the loops read of a request: its raw path. *)
Definition plain_request (method url : string) : Request :=
  {| Method := method; RawPath := url; Context := None |}.

Module Nilable.

Record Entry : Type := { entry_Logger : option Logger }.

Record Request : Type := {
  Method : string;
  RawPath : string;
  Context : option Entry
}.

Definition nil_dereference : panic :=
  PanicMessage "runtime error: invalid memory address or nil pointer dereference".

Definition Extract (ctx : option Entry) : option Entry :=
  match ctx with
  | Some e => Some e
  | None => Some {| entry_Logger := Some nullLogger |}
  end.

Definition checkLogger (logger : option Entry) : outcome (option Entry * bool) :=
  match logger with
  | None => Returned (logger, false)
  | Some e =>
      match entry_Logger e with
      | None => Panicked nil_dereference
      | Some l =>
          if decide (Out l = Discard) then Returned (logger, false)
          else Returned (logger, true)
      end
  end.

Section Handle.

Context {W : Type}.

Definition handle (visit : gmap string (@Check W) → list (string * @Check W))
    (ch : @checksHandler W) (rw : ResponseWriter) (r : Request)
    (checksSets : list (gmap string (@Check W))) (w : W) : outcome handled :=
  let logger := logger ch in
  '(ctxLogger, ok) ← checkLogger (Extract (Context r));
  logger ← (if ok : bool then
              match ctxLogger with
              | Some ctxLogger => Returned (entry_Logger ctxLogger)
              | None => Panicked nil_dereference
              end
            else Returned logger);
  let r' := plain_request (Method r) (RawPath r) in
  if decide (Method r ≠ MethodGet) then
    Returned
      {| response := Error rw (StatusText StatusMethodNotAllowed)
                           StatusMethodNotAllowed;
         failures := None;
         final := w;
         invoked := [];
         written := Warn logger (request_fields ch r')
                         "received non-GET request" |}
  else
    let st := {| status := StatusOK; errors := ∅; world := w; calls := [];
                 diagnostics := [] |} in
    match range_sets ch r' logger visit checksSets st with
    | Return st
    | Next st =>
        Returned
          {| response := WriteHeader rw (status st);
             failures := Some (errors st);
             final := world st;
             invoked := calls st;
             written := diagnostics st |}
    end.

Definition healthEndpoint visit (ch : @checksHandler W) (rw : ResponseWriter)
    (r : Request) (w : W) : outcome handled :=
  handle visit ch rw r [livenessChecks ch] w.

Definition readyEndpoint visit (ch : @checksHandler W) (rw : ResponseWriter)
    (r : Request) (w : W) : outcome handled :=
  handle visit ch rw r [readinessChecks ch] w.

End Handle.

End Nilable.

Definition nilable_entry (e : Entry) : Nilable.Entry :=
  {| Nilable.entry_Logger := Some (entry_Logger e) |}.

Definition nilable_request (r : Request) : Nilable.Request :=
  {| Nilable.Method := Method r;
     Nilable.RawPath := RawPath r;
     Nilable.Context := nilable_entry <$> Context r |}.

(** A request whose context carries an entry with a nil logger. *)
Definition nil_logger_request (method url : string) : Nilable.Request :=
  {| Nilable.Method := method;
     Nilable.RawPath := url;
     Nilable.Context := Some {| Nilable.entry_Logger := None |} |}.

(** ** A counting fixture

    The state of the checks is a counter per name; a counting check adds
    one to its own counter at every call and reports the result given. *)

Module Fixture.

Definition counting (name : string) (result : option string)
  : @Check (gmap string nat) :=
  Some (λ w, (result, <[name := S (default 0%nat (w !! name))]> w)).

Definition refused : gmap string nat → option string * gmap string nat :=
  λ w, (Some "connection refused",
        <["db" := S (default 0%nat (w !! "db"))]> w).

Definition fresh : @checksHandler (gmap string nat) :=
  {| livenessPath := "/live"; livenessChecks := ∅;
     readinessPath := "/ready"; readinessChecks := ∅;
     failFast := false; logger := None |}.

Definition registered : @checksHandler (gmap string nat) :=
  register_all fresh
    [ Liveness "self" (counting "self" None);
      Readiness "db" (Some refused);
      Readiness "cache" (counting "cache" None);
      Readiness "off" None ].

Definition same_paths : @checksHandler (gmap string nat) :=
  {| livenessPath := "/health"; livenessChecks := ∅;
     readinessPath := "/health"; readinessChecks := ∅;
     failFast := false; logger := None |}.

Definition get : Request :=
  {| Method := "GET"; RawPath := ""; Context := None |}.

Definition post : Request :=
  {| Method := "POST"; RawPath := ""; Context := None |}.

Definition stderr : Logger := {| Out := Sink 2 |}.

(** An order of visit other than that of [map_to_list]. *)
Definition backwards (m : gmap string (@Check (gmap string nat)))
  : list (string * @Check (gmap string nat)) :=
  reverse (map_to_list m).

(** A request whose context carries an entry of a logger that writes. *)
Definition get_logged : Request :=
  {| Method := "GET"; RawPath := "/ready";
     Context := Some {| entry_Logger := {| Out := Sink 7 |} |} |}.

(** The registry that [newChecksHandler "health" "/ready"] returns. *)
Definition health_ready : @checksHandler (gmap string nat) :=
  {| livenessPath := "/health"; livenessChecks := ∅;
     readinessPath := "/ready"; readinessChecks := ∅;
     failFast := false; logger := None |}.

(** The router after [RegisterHandler] of [fresh] on a new router. *)
Definition routed : gmap string endpoint :=
  <["/live" := HealthEndpoint]> (<["/ready" := ReadyEndpoint]> ∅).

End Fixture.

Section HealthFacts.

Context {W : Type}.

Implicit Types (ch : @checksHandler W) (st : @evaluation W).
Implicit Types (entries : list (string * @Check W)) (check : @Check W).
Implicit Types (m : gmap string (@Check W)).
Implicit Types (sets : list (gmap string (@Check W))).
Implicit Types (visit : gmap string (@Check W) → list (string * @Check W)).
Implicit Types (regs : list (@registration W)) (reg : @registration W).
Implicit Types (f g : W → option string * W) (w : W).
Implicit Types (name n : string) (cs : list (string * option string)).

(** ** Facts about lists of entries *)

Lemma checked_sublist entries : checked entries `sublist_of` entries.*1.
Proof.
  induction entries as [|[name [f|]] entries IH]; simpl.
  - constructor.
  - by constructor.
  - by apply sublist_cons.
Qed.

Lemma elem_of_checked name entries :
  name ∈ checked entries ↔ ∃ f, (name, Some f) ∈ entries.
Proof.
  induction entries as [|[name' [f|]] entries IH]; simpl.
  - split; [by intros ?%elem_of_nil | by intros [? ?%elem_of_nil]].
  - rewrite elem_of_cons, IH. split.
    + intros [->|[g Hg]]; [exists f; left | exists g; by right].
    + intros [g [[= -> ->]|Hg]%elem_of_cons]; [by left | right; eauto].
  - rewrite IH. split.
    + intros [g Hg]. exists g. by right.
    + intros [g [[=]|Hg]%elem_of_cons]. eauto.
Qed.

Lemma length_checked entries : (length (checked entries) ≤ length entries)%nat.
Proof.
  rewrite <- (length_fmap fst entries).
  apply sublist_length, checked_sublist.
Qed.

Lemma times_invoked_nil name : times_invoked name [] = 0%nat.
Proof. reflexivity. Qed.

Lemma times_invoked_absent name cs :
  name ∉ cs.*1 → times_invoked name cs = 0%nat.
Proof.
  unfold times_invoked. induction cs as [|[n e] cs IH]; [done|].
  rewrite fmap_cons, not_elem_of_cons. intros [Hne Hcs].
  rewrite filter_cons_False; [by apply IH | simpl; by intros ->].
Qed.

Lemma times_invoked_once name cs :
  NoDup cs.*1 → name ∈ cs.*1 → times_invoked name cs = 1%nat.
Proof.
  unfold times_invoked. induction cs as [|[n e] cs IH]; simpl.
  - by intros _ ?%elem_of_nil.
  - rewrite NoDup_cons, elem_of_cons. intros [Hn Hnd] [->|Hin].
    + rewrite filter_cons_True by done. simpl.
      f_equal. apply (times_invoked_absent n cs Hn).
    + rewrite filter_cons_False; [by apply IH|].
      simpl. intros ->. done.
Qed.

Section Visit.

Variable visit : gmap string (@Check W) → list (string * @Check W).
Hypothesis visit_range : range_order visit.

Lemma elem_of_visit m name check :
  (name, check) ∈ visit m ↔ m !! name = Some check.
Proof. by rewrite (visit_range m), elem_of_map_to_list. Qed.

Lemma NoDup_visit m : NoDup (visit m).*1.
Proof. rewrite (visit_range m). apply NoDup_fst_map_to_list. Qed.

Lemma length_visit m : length (visit m) = size m.
Proof. by rewrite (visit_range m), length_map_to_list. Qed.

Lemma NoDup_checked_visit m : NoDup (checked (visit m)).
Proof.
  pose proof (checked_sublist (visit m)) as Hsub.
  pose proof (NoDup_visit m) as Hnd.
  by eapply sublist_NoDup.
Qed.

Lemma visit_empty : visit ∅ = [].
Proof.
  apply Permutation_nil_r. by rewrite (visit_range ∅), map_to_list_empty.
Qed.

End Visit.

(** ** The loop over one check set *)

Section Loop.

Variable ch : @checksHandler W.
Variable r : Request.
Variable lg : option Logger.

(** Without fail-fast the loop never returns early: it calls every
    non-nil check, in order, and ends with 503 exactly when the status
    was 503 before or one of the calls failed. *)
Lemma range_checks_every entries st :
  failFast ch = false →
  ∃ st' cs,
    range_checks ch r lg entries st = Next st' ∧
    calls st' = calls st ++ cs ∧
    cs.*1 = checked entries ∧
    (∀ name f, (name, Some f) ∈ entries → ∃ w, (name, (f w).1) ∈ cs) ∧
    (Forall (λ c, c.2 = None) cs →
       status st' = status st ∧ errors st' = errors st) ∧
    (status st = StatusServiceUnavailable ∨ Exists (λ c, c.2 ≠ None) cs →
       status st' = StatusServiceUnavailable).
Proof.
  intros Hff. revert st.
  induction entries as [|[name [f|]] entries IH]; intros st; simpl.
  - exists st, []. rewrite app_nil_r. split_and!; try done.
    + by intros ? ? ?%elem_of_nil.
    + by intros [?|?%Exists_nil].
  - destruct (f (world st)) as [[e|] w] eqn:Hf; rewrite ?Hff.
    + edestruct IH as (st' & cs & -> & Hcalls & Hnames & Hall & _ & Hbad).
      exists st', ((name, Some e) :: cs). simpl in Hcalls |- *.
      split_and!; try done.
      * by rewrite Hcalls, <- app_assoc.
      * f_equal. apply Hnames.
      * intros n g [[= -> ->]|Hin]%elem_of_cons.
        -- exists (world st). rewrite Hf. by left.
        -- destruct (Hall n g Hin) as [w' ?]. exists w'. by right.
      * by intros [? _]%Forall_cons_1.
      * intros _. apply Hbad. by left.
    + edestruct IH as (st' & cs & -> & Hcalls & Hnames & Hall & Hok & Hbad).
      exists st', ((name, None) :: cs). simpl in Hcalls |- *.
      split_and!; try done.
      * by rewrite Hcalls, <- app_assoc.
      * f_equal. apply Hnames.
      * intros n g [[= -> ->]|Hin]%elem_of_cons.
        -- exists (world st). rewrite Hf. by left.
        -- destruct (Hall n g Hin) as [w' ?]. exists w'. by right.
      * intros [_ Hcs]%Forall_cons_1. by apply Hok.
      * intros [Hst|[?|Hcs]%Exists_cons]; [|done|]; apply Hbad.
        -- by left.
        -- by right.
  - destruct (IH st) as (st' & cs & -> & Hcalls & Hnames & Hall & Hok & Hbad).
    exists st', cs. split_and!; try done.
    intros n g [[=]|Hin]%elem_of_cons. by apply Hall.
Qed.

(** With fail-fast the loop either runs through without a failure, or
    returns from inside at the first failure: the failing call is the
    last one made. *)
Lemma range_checks_failfast entries st :
  failFast ch = true →
  (∃ st' cs,
     range_checks ch r lg entries st = Next st' ∧
     status st' = status st ∧ errors st' = errors st ∧
     calls st' = calls st ++ cs ∧
     cs.*1 = checked entries ∧
     Forall (λ c, c.2 = None) cs ∧
     (∀ name f, (name, Some f) ∈ entries → ∃ w, (f w).1 = None))
  ∨
  (∃ st' pre name e,
     range_checks ch r lg entries st = Return st' ∧
     status st' = StatusServiceUnavailable ∧
     errors st' = <[name := e]> (errors st) ∧
     calls st' = calls st ++ pre ++ [(name, Some e)] ∧
     Forall (λ c, c.2 = None) pre ∧
     (pre ++ [(name, Some e)]).*1 `prefix_of` checked entries ∧
     (∃ f w, (name, Some f) ∈ entries ∧ (f w).1 = Some e)).
Proof.
  intros Hff. revert st.
  induction entries as [|[name [f|]] entries IH]; intros st; simpl.
  - left. exists st, []. rewrite app_nil_r. split_and!; try done.
    by intros ? ? ?%elem_of_nil.
  - destruct (f (world st)) as [[e|] w] eqn:Hf; rewrite ?Hff.
    + right. eexists _, [], name, e. simpl. split_and!; try done.
      * by apply prefix_cons, prefix_nil.
      * exists f, (world st). rewrite Hf. split; [by left | done].
    + edestruct IH as
        [(st' & cs & -> & Hst & Herr & Hcalls & Hnames & Hcs & Hall)
        |(st' & pre & n & e & -> & Hst & Herr & Hcalls & Hpre & Hpfx & Hinv)].
      * left. exists st', ((name, None) :: cs). simpl in Hcalls |- *.
        split_and!; try done.
        -- by rewrite Hcalls, <- app_assoc.
        -- f_equal. apply Hnames.
        -- by constructor.
        -- intros n g [[= -> ->]|Hin]%elem_of_cons.
           ++ exists (world st). by rewrite Hf.
           ++ by apply (Hall n g).
      * right. exists st', ((name, None) :: pre), n, e. simpl in Hcalls |- *.
        split_and!; try done.
        -- by rewrite Hcalls, <- app_assoc.
        -- by constructor.
        -- by apply prefix_cons.
        -- destruct Hinv as (g & w' & Hin & Hg). exists g, w'.
           split; [by right | done].
  - destruct (IH st) as
      [(st' & cs & -> & Hst & Herr & Hcalls & Hnames & Hcs & Hall)
      |(st' & pre & n & e & -> & Hst & Herr & Hcalls & Hpre & Hpfx & Hinv)].
    + left. exists st', cs. split_and!; try done.
      intros n g [[=]|Hin]%elem_of_cons. by apply (Hall n g).
    + right. exists st', pre, n, e. split_and!; try done.
      destruct Hinv as (g & w' & Hin & Hg). exists g, w'.
      split; [by right | done].
Qed.

End Loop.

(** ** [handle] in terms of its loops *)

Lemma checkLogger_ok l l' : checkLogger l = (l', true) → is_Some l'.
Proof.
  destruct l as [e|]; simpl; [|by intros [=]].
  case_decide; intros [= <-]; eauto.
Qed.

Lemma handle_not_get visit ch rw r sets w :
  Method r ≠ MethodGet →
  handle visit ch rw r sets w =
    {| response := Error rw (StatusText StatusMethodNotAllowed)
                         StatusMethodNotAllowed;
       failures := None; final := w; invoked := [];
       written := Warn (request_logger ch r) (request_fields ch r)
                       "received non-GET request" |}.
Proof. intros Hm. unfold handle. by rewrite decide_True. Qed.

Lemma handle_get visit ch rw r sets w :
  Method r = MethodGet →
  handle visit ch rw r sets w =
    let st := ended (range_sets ch r (request_logger ch r) visit sets (start w)) in
    {| response := WriteHeader rw (status st);
       failures := Some (errors st); final := world st;
       invoked := calls st; written := diagnostics st |}.
Proof.
  intros Hm. unfold handle. rewrite decide_False by (by intros []).
  fold (request_logger ch r). fold (start w).
  by destruct (range_sets _ _ _ _ _ _).
Qed.

Lemma range_sets_single ch r lg visit m st :
  ended (range_sets ch r lg visit [m] st) =
  ended (range_checks ch r lg (visit m) st).
Proof. simpl. by destruct (range_checks _ _ _ _ _). Qed.

Lemma serve_handle visit ch ep rw r w :
  serve visit ch ep rw r w = handle visit ch rw r [active ch ep] w.
Proof. by destruct ep. Qed.

Lemma times_invoked_le_1 name cs :
  NoDup cs.*1 → (times_invoked name cs ≤ 1)%nat.
Proof.
  intros Hnd. destruct (decide (name ∈ cs.*1)).
  - by rewrite times_invoked_once.
  - rewrite times_invoked_absent by done. lia.
Qed.

(** The status after a loop is the status before it or 503. *)
Lemma range_checks_status ch r lg entries st :
  status (ended (range_checks ch r lg entries st)) = status st ∨
  status (ended (range_checks ch r lg entries st)) = StatusServiceUnavailable.
Proof.
  revert st. induction entries as [|[name [f|]] entries IH]; intros st; simpl.
  - by left.
  - destruct (f (world st)) as [[e|] w] eqn:Hf.
    + destruct (failFast ch); [by right|].
      match goal with |- context [range_checks _ _ _ _ ?st'] =>
        destruct (IH st') as [->| ->] end; by right.
    + match goal with |- context [range_checks _ _ _ _ ?st'] =>
        destruct (IH st') as [->| ->] end; [by left|by right].
  - apply IH.
Qed.

Lemma range_sets_status ch r lg visit sets st :
  status (ended (range_sets ch r lg visit sets st)) = status st ∨
  status (ended (range_sets ch r lg visit sets st)) = StatusServiceUnavailable.
Proof.
  revert st. induction sets as [|m sets IH]; intros st; simpl; [by left|].
  pose proof (range_checks_status ch r lg (visit m) st) as Hm.
  destruct (range_checks ch r lg (visit m) st) as [st'|st']; simpl in Hm.
  - destruct (IH st') as [Hs| ->]; [|by right]. rewrite Hs. done.
  - done.
Qed.

(** ** The loops do not depend on the logger *)

Lemma range_checks_agree ch1 ch2 r1 r2 lg1 lg2 entries st1 st2 :
  failFast ch1 = failFast ch2 →
  agree st1 st2 →
  control_agree (range_checks ch1 r1 lg1 entries st1)
                (range_checks ch2 r2 lg2 entries st2).
Proof.
  intros Hff. revert st1 st2.
  induction entries as [|[name [f|]] entries IH];
    intros st1 st2 (Hst & Herr & Hw & Hc); simpl.
  - done.
  - rewrite <- Hw, <- Hff.
    destruct (f (world st1)) as [[e|] w].
    + destruct (failFast ch1).
      * simpl. unfold agree. simpl. by rewrite Herr, Hc.
      * apply IH. unfold agree. simpl. by rewrite Herr, Hc.
    + apply IH. unfold agree. simpl. by rewrite Hc.
  - by apply IH.
Qed.

Lemma range_sets_agree ch1 ch2 r1 r2 lg1 lg2 visit sets st1 st2 :
  failFast ch1 = failFast ch2 →
  agree st1 st2 →
  control_agree (range_sets ch1 r1 lg1 visit sets st1)
                (range_sets ch2 r2 lg2 visit sets st2).
Proof.
  intros Hff. revert st1 st2.
  induction sets as [|m sets IH]; intros st1 st2 Hst; simpl; [done|].
  pose proof (range_checks_agree ch1 ch2 r1 r2 lg1 lg2 (visit m) st1 st2 Hff Hst)
    as Hm.
  destruct (range_checks ch1 r1 lg1 (visit m) st1),
           (range_checks ch2 r2 lg2 (visit m) st2); simpl in Hm; try done.
  by apply IH.
Qed.

Lemma handle_agree visit ch1 ch2 rw r1 r2 sets w :
  failFast ch1 = failFast ch2 →
  Method r1 = Method r2 →
  http_behaviour (handle visit ch1 rw r1 sets w) =
  http_behaviour (handle visit ch2 rw r2 sets w).
Proof.
  intros Hff Hm. destruct (decide (Method r1 = MethodGet)) as [Hget|Hget].
  - rewrite !handle_get by congruence. unfold http_behaviour. simpl.
    pose proof (range_sets_agree ch1 ch2 r1 r2 (request_logger ch1 r1)
      (request_logger ch2 r2) visit sets (start w) (start w) Hff) as Hs.
    specialize (Hs ltac:(done)).
    destruct (range_sets ch1 _ _ _ _ _), (range_sets ch2 _ _ _ _ _);
      simpl in *; try done; destruct Hs as (-> & -> & -> & ->); done.
  - rewrite !handle_not_get by congruence. done.
Qed.

(** A logger writes only where the code has one at hand. *)
Lemma range_checks_silent ch r entries st :
  diagnostics (ended (range_checks ch r None entries st)) = diagnostics st.
Proof.
  revert st. induction entries as [|[name [f|]] entries IH]; intros st; simpl.
  - done.
  - destruct (f (world st)) as [[e|] w].
    + destruct (failFast ch); simpl; [by rewrite app_nil_r|].
      rewrite IH. simpl. by rewrite app_nil_r.
    + by rewrite IH.
  - apply IH.
Qed.

Lemma range_sets_silent ch r visit sets st :
  diagnostics (ended (range_sets ch r None visit sets st)) = diagnostics st.
Proof.
  revert st. induction sets as [|m sets IH]; intros st; simpl; [done|].
  pose proof (range_checks_silent ch r (visit m) st) as Hm.
  destruct (range_checks ch r None (visit m) st); simpl in *; [|done].
  by rewrite IH.
Qed.

(** ** [handle] reads the paths, the flag and the logger of the registry *)

Lemma range_checks_ext ch1 ch2 r lg entries st :
  livenessPath ch1 = livenessPath ch2 →
  readinessPath ch1 = readinessPath ch2 →
  failFast ch1 = failFast ch2 →
  range_checks ch1 r lg entries st = range_checks ch2 r lg entries st.
Proof.
  intros Hl Hr Hff. revert st.
  induction entries as [|[name [f|]] entries IH]; intros st; simpl; [done| |done].
  unfold request_fields, path_fields. rewrite Hl, Hr, Hff.
  destruct (f (world st)) as [[e|] w]; [|done].
  destruct (failFast ch2); [done|]. apply IH.
Qed.

Lemma handle_ext visit ch1 ch2 rw r sets w :
  livenessPath ch1 = livenessPath ch2 →
  readinessPath ch1 = readinessPath ch2 →
  failFast ch1 = failFast ch2 →
  logger ch1 = logger ch2 →
  handle visit ch1 rw r sets w = handle visit ch2 rw r sets w.
Proof.
  intros Hl Hr Hff Hlg. unfold handle, request_fields, path_fields.
  rewrite Hl, Hr, Hlg. case_decide; [done|].
  match goal with |- context [range_sets ch1 r ?lg visit sets ?st] =>
    assert (range_sets ch1 r lg visit sets st = range_sets ch2 r lg visit sets st)
      as ->; [|done]; generalize st; generalize lg end.
  intros lg. induction sets as [|m sets IH]; intros st; simpl; [done|].
  rewrite (range_checks_ext ch1 ch2) by done.
  destruct (range_checks ch2 r lg (visit m) st); [apply IH|done].
Qed.

(** ** Registrations *)

Lemma register_fields ch reg :
  livenessPath (register ch reg) = livenessPath ch ∧
  readinessPath (register ch reg) = readinessPath ch ∧
  failFast (register ch reg) = failFast ch ∧
  logger (register ch reg) = logger ch.
Proof. by destruct reg. Qed.

Lemma register_all_fields ch regs :
  livenessPath (register_all ch regs) = livenessPath ch ∧
  readinessPath (register_all ch regs) = readinessPath ch ∧
  failFast (register_all ch regs) = failFast ch ∧
  logger (register_all ch regs) = logger ch.
Proof.
  revert ch. induction regs as [|reg regs IH]; intros ch; simpl; [done|].
  destruct (IH (register ch reg)) as (-> & -> & -> & ->).
  apply register_fields.
Qed.

Lemma register_all_checks ch regs :
  livenessChecks (register_all ch regs) = liveness_after (livenessChecks ch) regs ∧
  readinessChecks (register_all ch regs) = readiness_after (readinessChecks ch) regs.
Proof.
  revert ch. induction regs as [|reg regs IH]; intros ch; simpl; [done|].
  destruct (IH (register ch reg)) as [-> ->]. by destruct reg.
Qed.

Lemma liveness_after_filter m regs :
  liveness_after m (filter is_liveness regs) = liveness_after m regs.
Proof.
  revert m. induction regs as [|[name check|name check] regs IH]; intros m.
  - done.
  - rewrite filter_cons_True by done. simpl. apply IH.
  - rewrite filter_cons_False by (by intros []). simpl. apply IH.
Qed.

Lemma readiness_after_filter m regs :
  readiness_after m (filter is_readiness regs) = readiness_after m regs.
Proof.
  revert m. induction regs as [|[name check|name check] regs IH]; intros m.
  - done.
  - rewrite filter_cons_False by (by intros []). simpl. apply IH.
  - rewrite filter_cons_True by done. simpl. apply IH.
Qed.

(** ** The record of calls against the state of the checks *)

Lemma replay_snoc m w0 cs w n f e w' :
  replay m w0 cs = Some w →
  m !! n = Some (Some f) →
  f w = (e, w') →
  replay m w0 (cs ++ [(n, e)]) = Some w'.
Proof.
  intros Hcs Hn Hf. revert w0 Hcs.
  induction cs as [|[n0 e0] cs IH]; intros w0; simpl.
  - intros [= ->]. unfold Check in *. rewrite Hn, Hf. by rewrite decide_True.
  - destruct (m !! n0) as [[g|]|]; try done.
    destruct (g w0) as [e1 w1]. case_decide; [|done]. apply IH.
Qed.

Lemma replay_snoc_inv m w0 cs n e w' :
  replay m w0 (cs ++ [(n, e)]) = Some w' →
  ∃ f w, replay m w0 cs = Some w ∧ m !! n = Some (Some f) ∧ f w = (e, w').
Proof.
  revert w0. induction cs as [|[n0 e0] cs IH]; intros w0; simpl.
  - destruct (m !! n) as [[f|]|] eqn:Hn; try done.
    destruct (f w0) as [e1 w1] eqn:Hf. case_decide; [subst e1|done].
    intros [= <-]. by exists f, w0.
  - destruct (m !! n0) as [[g|]|]; try done.
    destruct (g w0) as [e1 w1]. case_decide; [|done]. apply IH.
Qed.

Lemma range_checks_replay ch r lg m entries st w0 :
  (∀ n check, (n, check) ∈ entries → m !! n = Some check) →
  replay m w0 (calls st) = Some (world st) →
  replay m w0 (calls (ended (range_checks ch r lg entries st)))
    = Some (world (ended (range_checks ch r lg entries st))).
Proof.
  revert st. induction entries as [|[name [f|]] entries IH]; intros st Hin Hst.
  - done.
  - assert (m !! name = Some (Some f)) as Hname by (apply Hin; by left).
    assert (∀ n check, (n, check) ∈ entries → m !! n = Some check) as Hin'
      by (intros ? ? ?; apply Hin; by right).
    simpl. destruct (f (world st)) as [[e|] w'] eqn:Hf.
    + destruct (failFast ch).
      * simpl. by eapply replay_snoc.
      * apply IH; [done|]. simpl. by eapply replay_snoc.
    + apply IH; [done|]. simpl. by eapply replay_snoc.
  - simpl. apply IH; [|done]. intros ? ? ?; apply Hin; by right.
Qed.

(** ** Properties of the request evaluation *)

(** Rewrites a GET request on an endpoint into the loop over its set. *)
Local Ltac evaluate_get Hget :=
  rewrite serve_handle, handle_get by exact Hget;
  cbv zeta; cbn [response failures final invoked written];
  rewrite ?range_sets_single.

(** C1.  A GET request, fail-fast disabled, the active check set holds a
    failing check: the response status is 503, every non-nil check of
    the set is called exactly once and nothing else is called.  The
    calls are calls of the registered checks: replayed in order from the
    initial state they give the results recorded and the final state,
    so a counter kept by a check has advanced by exactly one. *)
Theorem failing_check_without_failfast visit ch ep r w name f :
  range_order visit →
  Method r = MethodGet →
  failFast ch = false →
  active ch ep !! name = Some (Some f) →
  failing f →
  code (response (serve visit ch ep NewRecorder r w))
    = Some StatusServiceUnavailable ∧
  (∀ n g, active ch ep !! n = Some (Some g) →
     times_invoked n (invoked (serve visit ch ep NewRecorder r w)) = 1%nat) ∧
  (∀ n, active ch ep !! n = None ∨ active ch ep !! n = Some None →
     times_invoked n (invoked (serve visit ch ep NewRecorder r w)) = 0%nat) ∧
  (invoked (serve visit ch ep NewRecorder r w)).*1
    = checked (visit (active ch ep)) ∧
  replay (active ch ep) w (invoked (serve visit ch ep NewRecorder r w))
    = Some (final (serve visit ch ep NewRecorder r w)).
Proof.
  intros Hvisit Hget Hff Hname Hfail.
  evaluate_get Hget.
  pose proof (range_checks_replay ch r (request_logger ch r) (active ch ep)
                (visit (active ch ep)) (start w) w) as Hreplay.
  destruct (range_checks_every ch r (request_logger ch r)
              (visit (active ch ep)) (start w) Hff)
    as (st' & cs & Heq & Hcalls & Hnames & Hall & _ & Hbad).
  rewrite Heq in Hreplay |- *.
  simpl in Hcalls. subst cs.
  assert (∀ n, n ∈ (calls st').*1 ↔ ∃ g, active ch ep !! n = Some (Some g))
    as Hin.
  { intros n. rewrite Hnames, elem_of_checked.
    by setoid_rewrite (elem_of_visit visit Hvisit). }
  assert (NoDup (calls st').*1) as Hnd.
  { rewrite Hnames. by apply NoDup_checked_visit. }
  cbn [ended code WriteHeader NewRecorder].
  split_and!.
  - f_equal. apply Hbad. right.
    destruct (Hall name f) as [w' Hw']; [by apply elem_of_visit|].
    apply Exists_exists. eexists. split; [apply Hw'|]. apply Hfail.
  - intros n g Hn. apply times_invoked_once; [done|]. apply Hin. eauto.
  - intros n Hn. apply times_invoked_absent. rewrite Hin.
    intros [g Hg]. unfold Check in *. destruct Hn; congruence.
  - done.
  - apply Hreplay; [|done].
    intros n check. by apply (elem_of_visit visit Hvisit).
Qed.

(** C2.  A GET request, fail-fast enabled, the active check set holds a
    failing check: the response status is 503; the calls made are an
    initial part of the non-nil checks in the order visited, all of them
    successful but the last, which is the failure recorded; no more
    calls than the set has entries, none repeated.  Nothing is called
    after the failure: the final state of the checks is the state that
    the recorded calls, replayed in order from the initial state, leave
    behind, the failing call being the last of them. *)
Theorem failing_check_with_failfast visit ch ep r w name f :
  range_order visit →
  Method r = MethodGet →
  failFast ch = true →
  active ch ep !! name = Some (Some f) →
  failing f →
  code (response (serve visit ch ep NewRecorder r w))
    = Some StatusServiceUnavailable ∧
  (length (invoked (serve visit ch ep NewRecorder r w))
     ≤ size (active ch ep))%nat ∧
  (∀ n, (times_invoked n (invoked (serve visit ch ep NewRecorder r w))
           ≤ 1)%nat) ∧
  (invoked (serve visit ch ep NewRecorder r w)).*1
    `prefix_of` checked (visit (active ch ep)) ∧
  replay (active ch ep) w (invoked (serve visit ch ep NewRecorder r w))
    = Some (final (serve visit ch ep NewRecorder r w)) ∧
  ∃ pre n e g w0,
    invoked (serve visit ch ep NewRecorder r w) = pre ++ [(n, Some e)] ∧
    Forall (λ c, c.2 = None) pre ∧
    active ch ep !! n = Some (Some g) ∧
    replay (active ch ep) w pre = Some w0 ∧
    g w0 = (Some e, final (serve visit ch ep NewRecorder r w)) ∧
    failures (serve visit ch ep NewRecorder r w) = Some {[n := e]}.
Proof.
  intros Hvisit Hget Hff Hname Hfail.
  evaluate_get Hget.
  pose proof (range_checks_replay ch r (request_logger ch r) (active ch ep)
                (visit (active ch ep)) (start w) w) as Hreplay.
  destruct (range_checks_failfast ch r (request_logger ch r)
              (visit (active ch ep)) (start w) Hff)
    as [(st' & cs & _ & _ & _ & _ & _ & _ & Hall)
       |(st' & pre & n & e & Heq & Hst & Herr & Hcalls & Hpre & Hpfx & Hinv)].
  { destruct (Hall name f) as [w' Hw']; [by apply elem_of_visit|].
    by destruct (Hfail w'). }
  rewrite Heq in Hreplay |- *.
  simpl in Hcalls.
  assert (replay (active ch ep) w (calls st') = Some (world st')) as Hrep.
  { apply Hreplay; [|done].
    intros n' check. by apply (elem_of_visit visit Hvisit). }
  assert (NoDup (calls st').*1) as Hnd.
  { rewrite Hcalls. destruct Hpfx as [k Hk].
    pose proof (NoDup_checked_visit visit Hvisit (active ch ep)) as Hc.
    rewrite Hk in Hc. by apply NoDup_app in Hc as [? _]. }
  cbn [ended code WriteHeader NewRecorder].
  split_and!.
  - by rewrite Hst.
  - rewrite <- (length_fmap fst), Hcalls.
    etrans; [by apply prefix_length|].
    rewrite <- (length_visit visit Hvisit). apply length_checked.
  - intros n'. by apply times_invoked_le_1.
  - by rewrite Hcalls.
  - done.
  - rewrite Hcalls in Hrep.
    apply replay_snoc_inv in Hrep as (g & w0 & Hpre' & Hg & Hgw).
    exists pre, n, e, g, w0. split_and!; try done.
    by rewrite Herr.
Qed.

(** C3.  A request whose method is not GET, on either endpoint: the
    response status is 405 with the status text as body, no aggregation
    takes place and no check is called, whatever is registered. *)
Theorem non_get_method_not_allowed visit ch ep r w :
  Method r ≠ MethodGet →
  code (response (serve visit ch ep NewRecorder r w))
    = Some StatusMethodNotAllowed ∧
  body (response (serve visit ch ep NewRecorder r w))
    = "Method Not Allowed" +:+ String "010"%char "" ∧
  failures (serve visit ch ep NewRecorder r w) = None ∧
  invoked (serve visit ch ep NewRecorder r w) = [] ∧
  final (serve visit ch ep NewRecorder r w) = w.
Proof.
  intros Hm. by rewrite serve_handle, handle_not_get.
Qed.

(** C4.  A GET request on either endpoint whose check set is empty: the
    response status is 200. *)
Theorem empty_check_set_is_healthy visit ch ep r w :
  range_order visit →
  Method r = MethodGet →
  active ch ep = ∅ →
  code (response (serve visit ch ep NewRecorder r w)) = Some StatusOK.
Proof.
  intros Hvisit Hget Hempty.
  evaluate_get Hget.
  by rewrite Hempty, (visit_empty visit Hvisit).
Qed.

(** Whatever logger the registry has and whatever entry with a logger
    the request context carries, the response, the state of the checks,
    the calls made and the failure mapping are the same; without any
    logger nothing is written. *)
Theorem logger_does_not_alter_http_behaviour visit ch ep rw r w l ctx :
  http_behaviour (serve visit (WithLogger l ch) ep rw (WithContext ctx r) w)
    = http_behaviour (serve visit ch ep rw r w) ∧
  written (serve visit (WithLogger None ch) ep rw (WithContext None r) w) = [].
Proof.
  split.
  - rewrite !serve_handle.
    replace (active (WithLogger l ch) ep) with (active ch ep)
      by (by destruct ep).
    by apply handle_agree.
  - rewrite serve_handle.
    destruct (decide (Method r = MethodGet)) as [Hget|Hget].
    + rewrite handle_get by done. cbv zeta. cbn [written].
      apply range_sets_silent.
    + by rewrite handle_not_get.
Qed.

(** On a request whose context carries no entry or an entry that holds
    a logger, [Nilable.handle] returns, and returns what [handle] does. *)
Lemma Nilable_handle_returns visit ch rw r sets w :
  Nilable.handle visit ch rw (nilable_request r) sets w
    = Returned (handle visit ch rw r sets w).
Proof.
  unfold Nilable.handle, handle.
  destruct r as [method url [[[out]]|]]; simpl.
  - destruct (decide (out = Discard)); simpl;
      case_decide; try done;
      by destruct (range_sets _ _ _ _ _ _).
  - case_decide; try done. by destruct (range_sets _ _ _ _ _ _).
Qed.

(** Between requests whose context entries hold a logger, or that carry
    none, the logger makes no difference in [Nilable.handle] either. *)
Lemma Nilable_logger_does_not_alter visit ch rw r sets w l ctx :
  ∃ res1 res2,
    Nilable.handle visit (WithLogger l ch) rw
                   (nilable_request (WithContext ctx r)) sets w = Returned res1 ∧
    Nilable.handle visit ch rw (nilable_request r) sets w = Returned res2 ∧
    http_behaviour res1 = http_behaviour res2.
Proof.
  eexists _, _. rewrite !Nilable_handle_returns.
  split_and!; [done|done|]. by apply handle_agree.
Qed.

(** C6.  A request whose context carries an entry with a nil logger:
    [checkLogger] panics before the method is looked at, on either
    endpoint and whatever the registry holds, so no status is returned;
    the same request without an entry in its context gets a status. *)
Theorem nil_logger_in_context_fails_the_request
    visit ch method url sets w :
  Nilable.handle visit ch NewRecorder (nil_logger_request method url) sets w
    = Panicked Nilable.nil_dereference ∧
  Nilable.healthEndpoint visit ch NewRecorder (nil_logger_request method url) w
    = Panicked Nilable.nil_dereference ∧
  Nilable.readyEndpoint visit ch NewRecorder (nil_logger_request method url) w
    = Panicked Nilable.nil_dereference ∧
  ∃ res,
    Nilable.handle visit ch NewRecorder
                   (nilable_request (plain_request method url)) sets w
      = Returned res ∧
    is_Some (code (response res)).
Proof.
  split_and!; try done.
  eexists. split; [apply Nilable_handle_returns|].
  destruct (decide (method = MethodGet)) as [Hget|Hget].
  - rewrite handle_get by done. cbv zeta. by eexists.
  - rewrite handle_not_get by done. by eexists.
Qed.

(** C7.  A registration in one check set leaves the other set and the
    evaluation of the other endpoint as they were; after any sequence of
    registrations, each endpoint evaluates as if only the registrations
    of its own set had been made. *)
Theorem registrations_frame visit ch rw r w :
  (∀ name check,
     readinessChecks (AddLiveness ch name check).1 = readinessChecks ch ∧
     readyEndpoint visit (AddLiveness ch name check).1 rw r w
       = readyEndpoint visit ch rw r w) ∧
  (∀ name check,
     livenessChecks (AddReadiness ch name check).1 = livenessChecks ch ∧
     healthEndpoint visit (AddReadiness ch name check).1 rw r w
       = healthEndpoint visit ch rw r w) ∧
  (∀ regs,
     readinessChecks (register_all ch regs)
       = readinessChecks (register_all ch (filter is_readiness regs)) ∧
     readyEndpoint visit (register_all ch regs) rw r w
       = readyEndpoint visit (register_all ch (filter is_readiness regs)) rw r w) ∧
  (∀ regs,
     livenessChecks (register_all ch regs)
       = livenessChecks (register_all ch (filter is_liveness regs)) ∧
     healthEndpoint visit (register_all ch regs) rw r w
       = healthEndpoint visit (register_all ch (filter is_liveness regs)) rw r w).
Proof.
  split_and!.
  - intros name check. split; [done|].
    unfold readyEndpoint. simpl. by apply handle_ext.
  - intros name check. split; [done|].
    unfold healthEndpoint. simpl. by apply handle_ext.
  - intros regs.
    assert (readinessChecks (register_all ch regs)
            = readinessChecks (register_all ch (filter is_readiness regs)))
      as Hsame.
    { rewrite (proj2 (register_all_checks ch regs)).
      rewrite (proj2 (register_all_checks ch (filter is_readiness regs))).
      by rewrite readiness_after_filter. }
    split; [done|]. unfold readyEndpoint. rewrite Hsame.
    destruct (register_all_fields ch regs) as (Hl & Hr & Hff & Hlg).
    destruct (register_all_fields ch (filter is_readiness regs))
      as (Hl' & Hr' & Hff' & Hlg').
    apply handle_ext; congruence.
  - intros regs.
    assert (livenessChecks (register_all ch regs)
            = livenessChecks (register_all ch (filter is_liveness regs)))
      as Hsame.
    { rewrite (proj1 (register_all_checks ch regs)).
      rewrite (proj1 (register_all_checks ch (filter is_liveness regs))).
      by rewrite liveness_after_filter. }
    split; [done|]. unfold healthEndpoint. rewrite Hsame.
    destruct (register_all_fields ch regs) as (Hl & Hr & Hff & Hlg).
    destruct (register_all_fields ch (filter is_liveness regs))
      as (Hl' & Hr' & Hff' & Hlg').
    apply handle_ext; congruence.
Qed.

(** C8.  A GET request: the response body is empty, the status is 200 or
    503, no header field is set, and the failure mapping has been
    computed. *)
Theorem get_response_body_empty visit ch ep r w :
  Method r = MethodGet →
  body (response (serve visit ch ep NewRecorder r w)) = "" ∧
  header (response (serve visit ch ep NewRecorder r w)) = [] ∧
  (code (response (serve visit ch ep NewRecorder r w)) = Some StatusOK ∨
   code (response (serve visit ch ep NewRecorder r w))
     = Some StatusServiceUnavailable) ∧
  is_Some (failures (serve visit ch ep NewRecorder r w)).
Proof.
  intros Hget. rewrite serve_handle, handle_get by done.
  cbv zeta. cbn [response failures code body header WriteHeader NewRecorder].
  split_and!; [done|done| |by eexists].
  destruct (range_sets_status ch r (request_logger ch r) visit
              [active ch ep] (start w)) as [->| ->]; [by left|by right].
Qed.

(** ** Properties of the construction and of the routing *)

(** Paths that are not empty are normalised: kept when they start with
    a slash, prefixed with one otherwise. *)
Lemma newChecksHandler_normalizes (c1 c2 : ascii) (h p : string) :
  ∃ ch,
    newChecksHandler (String c1 h) (String c2 p) = Returned ch ∧
    livenessPath ch
      = (if decide (c1 = "/"%char) then String c1 h else "/" +:+ String c1 h) ∧
    readinessPath ch
      = (if decide (c2 = "/"%char) then String c2 p else "/" +:+ String c2 p) ∧
    starts_with_slash (livenessPath ch) ∧
    starts_with_slash (readinessPath ch) ∧
    livenessChecks ch = ∅ ∧ readinessChecks ch = ∅ ∧
    failFast ch = false ∧ logger ch = None.
Proof.
  eexists. split; [reflexivity|]. simpl. unfold starts_with_slash.
  repeat case_decide; simplify_eq; by split_and!.
Qed.

(** C5.  Construction with an empty liveness path: no registry is
    returned, so no stored path that begins with a slash; the same call
    with the path "health" stores "/health". *)
Theorem empty_path_is_not_normalized :
  @newChecksHandler W "" "/ready" = Panicked (IndexOutOfRange 0 0) ∧
  (¬ ∃ ch,
       @newChecksHandler W "" "/ready" = Returned ch ∧
       starts_with_slash (livenessPath ch)) ∧
  ∃ ch,
    @newChecksHandler W "health" "/ready" = Returned ch ∧
    livenessPath ch = "/health" ∧ readinessPath ch = "/ready".
Proof.
  split_and!.
  - reflexivity.
  - by intros (ch & [=] & _).
  - eexists. by split_and!.
Qed.

(** C9.  Construction with an empty string as either path panics with
    an index out of range, through every constructor. *)
Theorem empty_path_panics (p : string) :
  @newChecksHandler W "" p = Panicked (IndexOutOfRange 0 0) ∧
  @newChecksHandler W p "" = Panicked (IndexOutOfRange 0 0) ∧
  panics (@NewChecksHandler W "" p) ∧
  panics (@NewChecksHandler W p "") ∧
  (∀ options, panics (@NewChecksHandlerWithOptions W "" p options)) ∧
  (∀ options, panics (@NewChecksHandlerWithOptions W p "" options)).
Proof.
  assert (@newChecksHandler W "" p = Panicked (IndexOutOfRange 0 0)) as H1
    by reflexivity.
  assert (@newChecksHandler W p "" = Panicked (IndexOutOfRange 0 0)) as H2
    by (by destruct p).
  split_and!; try done.
  - by eexists.
  - by eexists.
  - intros options. by eexists.
  - intros options. eexists.
    unfold NewChecksHandlerWithOptions. by rewrite H2.
Qed.

(** C10.  When the two stored paths are equal, [Handler] panics and
    [RegisterHandler] panics on every router: the second registration
    meets the pattern of the first. *)
Theorem equal_paths_panic ch :
  livenessPath ch = readinessPath ch →
  panics (Handler ch).1 ∧
  ∀ mux, panics (RegisterHandler ch mux).1.
Proof.
  intros Heq.
  assert (∀ mux, panics (registerMux ch mux).1) as Hreg.
  { intros mux. unfold registerMux, HandleFunc. simpl. rewrite Heq.
    destruct (decide (readinessPath ch = "")); [by eexists|].
    destruct (mux !! readinessPath ch); [by eexists|]. simpl.
    rewrite lookup_insert_eq. by eexists. }
  split.
  - unfold Handler. specialize (Hreg NewServeMux).
    destruct (registerMux ch NewServeMux). done.
  - intros mux. unfold RegisterHandler. specialize (Hreg mux).
    destruct (registerMux ch mux). done.
Qed.

End HealthFacts.

(** * Further properties of the registry and of the evaluation *)

Section FurtherFacts.

Context {W : Type}.

Implicit Types (ch : @checksHandler W) (st : @evaluation W).
Implicit Types (entries : list (string * @Check W)) (check : @Check W).
Implicit Types (m : gmap string (@Check W)).
Implicit Types (sets : list (gmap string (@Check W))).
Implicit Types (visit : gmap string (@Check W) → list (string * @Check W)).
Implicit Types (regs : list (@registration W)) (reg : @registration W).
Implicit Types (f g : W → option string * W) (w : W).
Implicit Types (name n : string) (cs : list (string * option string)).

(** ** Records of calls *)

Lemma calls_ok_or_failed cs :
  Forall (λ c, c.2 = None) cs ∨ Exists (λ c, c.2 ≠ None) cs.
Proof.
  induction cs as [|[n [e|]] cs [IH|IH]].
  - by left.
  - right. by left.
  - right. by left.
  - left. by constructor.
  - right. by right.
Qed.

Lemma calls_ok_not_failed cs :
  Forall (λ c, c.2 = None) cs → ¬ Exists (λ c, c.2 ≠ None) cs.
Proof.
  intros Hok (c & Hin & Hc)%Exists_exists.
  by eapply Forall_forall in Hok.
Qed.

Lemma record_failures_ok (fs : gmap string string) cs :
  Forall (λ c, c.2 = None) cs → record_failures fs cs = fs.
Proof.
  intros Hok. revert fs.
  induction Hok as [|[n e] cs He Hcs IH]; intros fs; [done|].
  simpl in He. subst e. apply IH.
Qed.

Lemma record_failures_lookup (fs : gmap string string) cs n e :
  NoDup cs.*1 →
  record_failures fs cs !! n = Some e ↔
    (n, Some e) ∈ cs ∨
    (n ∉ fst <$> filter (λ c, c.2 ≠ None) cs) ∧ fs !! n = Some e.
Proof.
  revert fs. induction cs as [|[n0 [e0|]] cs IH]; intros fs Hnd.
  - simpl. split; [intros ?; right; split; [apply not_elem_of_nil|done]|].
    by intros [?%elem_of_nil|[_ ?]].
  - apply NoDup_cons in Hnd as [Hn0 Hnd].
    change (record_failures fs ((n0, Some e0) :: cs))
      with (record_failures (<[n0 := e0]> fs) cs).
    rewrite (IH _ Hnd), filter_cons_True by done.
    rewrite fmap_cons, not_elem_of_cons, elem_of_cons. simpl.
    destruct (decide (n = n0)) as [->|Hne].
    + rewrite lookup_insert_eq. split.
      * intros [Hin|[_ [= ->]]]; [|by left; left].
        destruct Hn0. apply list_elem_of_fmap. by exists (n0, Some e).
      * intros [[[= ->]|Hin]|[[? _] _]]; [|left; done|done].
        right. split; [|done]. intros Hx.
        apply list_elem_of_fmap in Hx as (c & -> & Hc).
        apply list_elem_of_filter in Hc.
        destruct Hn0. apply list_elem_of_fmap. exists c. by destruct Hc.
    + rewrite lookup_insert_ne by done. split.
      * intros [Hin|[Hnot Hfs]]; [left; by right|right; done].
      * intros [[[= -> _]|Hin]|[[_ Hnot] Hfs]]; [done|by left|by right].
  - apply NoDup_cons in Hnd as [Hn0 Hnd].
    change (record_failures fs ((n0, None) :: cs)) with (record_failures fs cs).
    rewrite (IH _ Hnd), filter_cons_False by (by intros []).
    rewrite elem_of_cons. split.
    + intros [Hin|?]; [left; by right|by right].
    + intros [[[=]|Hin]|?]; [by left|by right].
Qed.

(** ** The loop over one check set, for either setting of fail-fast *)

Lemma range_checks_trace ch r lg entries st :
  ∃ cs,
    calls (ended (range_checks ch r lg entries st)) = calls st ++ cs ∧
    cs.*1 `prefix_of` checked entries ∧
    (Forall (λ c, c.2 = None) cs →
       status (ended (range_checks ch r lg entries st)) = status st) ∧
    (Exists (λ c, c.2 ≠ None) cs →
       status (ended (range_checks ch r lg entries st))
         = StatusServiceUnavailable) ∧
    errors (ended (range_checks ch r lg entries st))
      = record_failures (errors st) cs ∧
    diagnostics (ended (range_checks ch r lg entries st))
      = diagnostics st ++ error_records lg (request_fields ch r) cs.
Proof.
  revert st. induction entries as [|[name [f|]] entries IH]; intros st.
  - exists []. simpl. rewrite !app_nil_r. split_and!; try done.
    by intros ?%Exists_nil.
  - simpl. destruct (f (world st)) as [[e|] w'] eqn:Hf.
    + destruct (failFast ch).
      * exists [(name, Some e)]. simpl. rewrite app_nil_r.
        split_and!; try done.
        -- by apply prefix_cons, prefix_nil.
        -- by intros [? _]%Forall_cons_1.
      * match goal with |- context [range_checks _ _ _ _ ?st'] =>
          destruct (IH st') as (cs & Hc & Hp & Hok & Hbad & He & Hd) end.
        exists ((name, Some e) :: cs). simpl in Hc, Hok, He, Hd.
        split_and!.
        -- by rewrite Hc, <- app_assoc.
        -- rewrite fmap_cons. by apply prefix_cons.
        -- by intros [? _]%Forall_cons_1.
        -- intros _. destruct (calls_ok_or_failed cs); auto.
        -- by rewrite He.
        -- by rewrite Hd, <- app_assoc.
    + match goal with |- context [range_checks _ _ _ _ ?st'] =>
        destruct (IH st') as (cs & Hc & Hp & Hok & Hbad & He & Hd) end.
      exists ((name, None) :: cs). simpl in Hc, Hok, He, Hd.
      split_and!.
      * by rewrite Hc, <- app_assoc.
      * rewrite fmap_cons. by apply prefix_cons.
      * intros [_ ?]%Forall_cons_1. auto.
      * intros [?|?]%Exists_cons; [done|auto].
      * by rewrite He.
      * by rewrite Hd.
  - simpl. apply IH.
Qed.

Lemma replay_calls_registered m w0 cs w' :
  replay m w0 cs = Some w' →
  ∀ n e, (n, e) ∈ cs → ∃ f w, m !! n = Some (Some f) ∧ (f w).1 = e.
Proof.
  revert w0. induction cs as [|[n0 e0] cs IH]; intros w0; simpl.
  - by intros _ ? ? ?%elem_of_nil.
  - destruct (m !! n0) as [[g|]|] eqn:Hn0; try done.
    destruct (g w0) as [e1 w1] eqn:Hg. case_decide; [subst e1|done].
    intros Hcs n e [[= -> ->]|Hin]%elem_of_cons.
    + exists g, w0. by rewrite Hg.
    + by eapply IH.
Qed.

Lemma error_records_none fields cs : error_records None fields cs = [].
Proof. induction cs as [|[n [e|]] cs IH]; done. Qed.

Lemma error_records_some l fields cs :
  Forall (λ rec, log_to rec = l ∧ log_level rec = ErrorLevel ∧
                 log_fields rec = fields)
         (error_records (Some l) fields cs) ∧
  log_error <$> error_records (Some l) fields cs
    = snd <$> filter (λ c, c.2 ≠ None) cs.
Proof.
  induction cs as [|[n [e|]] cs [IH1 IH2]].
  - done.
  - rewrite filter_cons_True by done. split.
    + simpl. by constructor.
    + rewrite fmap_cons. simpl. f_equal. apply IH2.
  - rewrite filter_cons_False by (by intros []). done.
Qed.

(** ** A GET request on an endpoint, for either setting of fail-fast *)

(** What a GET request leaves behind, in terms of the calls made. *)
Lemma serve_get visit ch ep rw r w :
  range_order visit →
  Method r = MethodGet →
  ∃ st',
    serve visit ch ep rw r w =
      {| response := WriteHeader rw (status st');
         failures := Some (errors st'); final := world st';
         invoked := calls st'; written := diagnostics st' |} ∧
    (calls st').*1 `prefix_of` checked (visit (active ch ep)) ∧
    NoDup (calls st').*1 ∧
    replay (active ch ep) w (calls st') = Some (world st') ∧
    (Forall (λ c, c.2 = None) (calls st') → status st' = StatusOK) ∧
    (Exists (λ c, c.2 ≠ None) (calls st') →
       status st' = StatusServiceUnavailable) ∧
    errors st' = record_failures ∅ (calls st') ∧
    diagnostics st'
      = error_records (request_logger ch r) (request_fields ch r) (calls st').
Proof.
  intros Hvisit Hget.
  exists (ended (range_checks ch r (request_logger ch r)
                   (visit (active ch ep)) (start w))).
  destruct (range_checks_trace ch r (request_logger ch r)
              (visit (active ch ep)) (start w))
    as (cs & Hc & Hp & Hok & Hbad & He & Hd).
  simpl in Hc. rewrite Hc.
  split_and!; try done.
  - rewrite serve_handle, handle_get by done. cbv zeta.
    by rewrite range_sets_single, Hc.
  - destruct Hp as [k Hk].
    pose proof (NoDup_checked_visit visit Hvisit (active ch ep)) as Hnd.
    rewrite Hk in Hnd. by apply NoDup_app in Hnd as [? _].
  - rewrite <- Hc. apply range_checks_replay; [|done].
    intros n check. by apply (elem_of_visit visit Hvisit).
Qed.

Lemma NoDup_times_invoked n cs e :
  NoDup cs.*1 → (n, e) ∈ cs → times_invoked n cs = 1%nat.
Proof.
  intros Hnd Hin. apply times_invoked_once; [done|].
  apply list_elem_of_fmap. by exists (n, e).
Qed.

(** Only checks that are registered and not nil are called, none of them
    twice; the calls follow the order of the visit. *)
Theorem only_registered_checks_are_called visit ch ep rw r w :
  range_order visit →
  Method r = MethodGet →
  (∀ n e, (n, e) ∈ invoked (serve visit ch ep rw r w) →
     ∃ f, active ch ep !! n = Some (Some f)) ∧
  (∀ n, (times_invoked n (invoked (serve visit ch ep rw r w)) ≤ 1)%nat) ∧
  (length (invoked (serve visit ch ep rw r w)) ≤ size (active ch ep))%nat ∧
  (invoked (serve visit ch ep rw r w)).*1
    `prefix_of` checked (visit (active ch ep)).
Proof.
  intros Hvisit Hget.
  destruct (serve_get visit ch ep rw r w Hvisit Hget)
    as (st' & -> & Hp & Hnd & Hr & _). cbn [invoked].
  split_and!; [|by intros; apply times_invoked_le_1| |done].
  - intros n e Hin.
    destruct (replay_calls_registered _ _ _ _ Hr n e Hin) as (f & _ & Hf & _).
    by exists f.
  - rewrite <- (length_fmap fst). etrans; [by apply prefix_length|].
    rewrite <- (length_visit visit Hvisit). apply length_checked.
Qed.

(** The state of the checks after a request is the state the recorded
    calls produce: each call is a call of the check registered under its
    name, made in the state the calls before it left, with the result
    recorded; nothing else touches the state. *)
Theorem calls_account_for_the_state visit ch ep rw r w :
  range_order visit →
  Method r = MethodGet →
  replay (active ch ep) w (invoked (serve visit ch ep rw r w))
    = Some (final (serve visit ch ep rw r w)).
Proof.
  intros Hvisit Hget.
  by destruct (serve_get visit ch ep rw r w Hvisit Hget)
    as (st' & -> & _ & _ & Hr & _).
Qed.

(** The status is 503 exactly when a call failed and 200 exactly when
    none did; the failure mapping holds exactly the failed calls, each
    name with the reason its check gave. *)
Theorem status_reflects_failed_calls visit ch ep r w :
  range_order visit →
  Method r = MethodGet →
  (code (response (serve visit ch ep NewRecorder r w))
     = Some StatusServiceUnavailable
   ↔ Exists (λ c, c.2 ≠ None) (invoked (serve visit ch ep NewRecorder r w))) ∧
  (code (response (serve visit ch ep NewRecorder r w)) = Some StatusOK
   ↔ Forall (λ c, c.2 = None) (invoked (serve visit ch ep NewRecorder r w))) ∧
  ∃ fs, failures (serve visit ch ep NewRecorder r w) = Some fs ∧
        ∀ n e, fs !! n = Some e
               ↔ (n, Some e) ∈ invoked (serve visit ch ep NewRecorder r w).
Proof.
  intros Hvisit Hget.
  destruct (serve_get visit ch ep NewRecorder r w Hvisit Hget)
    as (st' & -> & _ & Hnd & _ & Hok & Hbad & He & _).
  cbn [invoked response failures code WriteHeader NewRecorder].
  split_and!.
  - split; [|by intros ->%Hbad].
    intros [= Hst]. destruct (calls_ok_or_failed (calls st')) as [H|H]; [|done].
    rewrite (Hok H) in Hst. done.
  - split; [|by intros ->%Hok].
    intros [= Hst]. destruct (calls_ok_or_failed (calls st')) as [H|H]; [done|].
    rewrite (Hbad H) in Hst. done.
  - exists (errors st'). split; [done|]. intros n e.
    rewrite He, record_failures_lookup by done. rewrite lookup_empty.
    split; [by intros [?|[_ ?]]|by left].
Qed.

(** When every registered check succeeds the status is 200, the failure
    mapping is empty, nothing is logged, and every non-nil check has
    been called exactly once, with or without fail-fast. *)
Theorem succeeding_checks_give_200 visit ch ep r w :
  range_order visit →
  Method r = MethodGet →
  (∀ n f, active ch ep !! n = Some (Some f) → succeeding f) →
  code (response (serve visit ch ep NewRecorder r w)) = Some StatusOK ∧
  failures (serve visit ch ep NewRecorder r w) = Some ∅ ∧
  written (serve visit ch ep NewRecorder r w) = [] ∧
  (invoked (serve visit ch ep NewRecorder r w)).*1
    = checked (visit (active ch ep)) ∧
  (∀ n f, active ch ep !! n = Some (Some f) →
     times_invoked n (invoked (serve visit ch ep NewRecorder r w)) = 1%nat).
Proof.
  intros Hvisit Hget Hall.
  assert ((invoked (serve visit ch ep NewRecorder r w)).*1
            = checked (visit (active ch ep))) as Hnames.
  { rewrite serve_handle, handle_get by done. cbv zeta. cbn [invoked].
    rewrite range_sets_single.
    destruct (failFast ch) eqn:Hff.
    - destruct (range_checks_failfast ch r (request_logger ch r)
                  (visit (active ch ep)) (start w) Hff)
        as [(st' & cs & -> & _ & _ & Hc & Hn & _)
           |(st' & pre & n & e & _ & _ & _ & _ & _ & _ & f & w' & Hin & Hf)].
      + simpl in Hc. simpl. by rewrite Hc.
      + apply (elem_of_visit visit Hvisit) in Hin.
        specialize (Hall n f Hin w'). congruence.
    - destruct (range_checks_every ch r (request_logger ch r)
                  (visit (active ch ep)) (start w) Hff)
        as (st' & cs & -> & Hc & Hn & _).
      simpl in Hc. simpl. by rewrite Hc. }
  revert Hnames.
  destruct (serve_get visit ch ep NewRecorder r w Hvisit Hget)
    as (st' & -> & _ & Hnd & Hr & Hok & _ & He & Hd).
  cbn [invoked response failures written code WriteHeader NewRecorder].
  intros Hnames.
  assert (Forall (λ c, c.2 = None) (calls st')) as Hcalls.
  { apply Forall_forall. intros [n e] Hin.
    destruct (replay_calls_registered _ _ _ _ Hr n e Hin) as (f & w' & Hf & <-).
    by apply (Hall n f). }
  split_and!; try done.
  - by rewrite Hok.
  - by rewrite He, record_failures_ok.
  - rewrite Hd. clear -Hcalls.
    induction Hcalls as [|[n e] cs Hc _ IH]; [done|].
    simpl in Hc. subst e. apply IH.
  - intros n f Hn. apply times_invoked_once; [done|].
    rewrite Hnames. apply elem_of_checked. exists f.
    by apply (elem_of_visit visit Hvisit).
Qed.

(** Without fail-fast every non-nil check is called exactly once,
    whether or not a check fails. *)
Theorem without_failfast_every_check_is_called visit ch ep rw r w :
  range_order visit →
  Method r = MethodGet →
  failFast ch = false →
  (invoked (serve visit ch ep rw r w)).*1 = checked (visit (active ch ep)) ∧
  (∀ n f, active ch ep !! n = Some (Some f) →
     times_invoked n (invoked (serve visit ch ep rw r w)) = 1%nat).
Proof.
  intros Hvisit Hget Hff.
  assert ((invoked (serve visit ch ep rw r w)).*1
            = checked (visit (active ch ep))) as Hnames.
  { rewrite serve_handle, handle_get by done. cbv zeta. cbn [invoked].
    rewrite range_sets_single.
    destruct (range_checks_every ch r (request_logger ch r)
                (visit (active ch ep)) (start w) Hff)
      as (st' & cs & -> & Hc & Hn & _).
    simpl in Hc. simpl. by rewrite Hc. }
  split; [done|]. intros n f Hn. apply times_invoked_once.
  - rewrite Hnames. by apply NoDup_checked_visit.
  - rewrite Hnames. apply elem_of_checked. exists f.
    by apply (elem_of_visit visit Hvisit).
Qed.

(** A registered failing check gives 503, with or without fail-fast. *)
Lemma failing_check_gives_503 visit ch ep r w n f :
  range_order visit →
  Method r = MethodGet →
  active ch ep !! n = Some (Some f) →
  failing f →
  code (response (serve visit ch ep NewRecorder r w))
    = Some StatusServiceUnavailable.
Proof.
  intros Hvisit Hget Hn Hf.
  rewrite serve_handle, handle_get by done. cbv zeta.
  cbn [response code WriteHeader NewRecorder].
  rewrite range_sets_single. f_equal.
  apply (elem_of_visit visit Hvisit) in Hn.
  destruct (failFast ch) eqn:Hff.
  - destruct (range_checks_failfast ch r (request_logger ch r)
                (visit (active ch ep)) (start w) Hff)
      as [(st' & cs & _ & _ & _ & _ & _ & _ & Hall)
         |(st' & pre & n' & e & -> & Hst & _)]; [|done].
    destruct (Hall n f Hn) as [w' Hw']. by destruct (Hf w').
  - destruct (range_checks_every ch r (request_logger ch r)
                (visit (active ch ep)) (start w) Hff)
      as (st' & cs & -> & _ & _ & Hall & _ & Hbad).
    apply Hbad. right. destruct (Hall n f Hn) as [w' Hw'].
    apply Exists_exists. eexists. split; [apply Hw'|]. apply Hf.
Qed.

(** When each registered check either always fails or always succeeds,
    the status does not depend on fail-fast, on the order of the visit
    or on the state the checks start from. *)
Theorem status_independent_of_failfast_and_order
    visit1 visit2 ch ep r w1 w2 b1 b2 :
  range_order visit1 →
  range_order visit2 →
  Method r = MethodGet →
  (∀ n f, active ch ep !! n = Some (Some f) → failing f ∨ succeeding f) →
  code (response (serve visit1 (SetFailFast ch b1) ep NewRecorder r w1))
    = code (response (serve visit2 (SetFailFast ch b2) ep NewRecorder r w2)).
Proof.
  intros Hv1 Hv2 Hget Hsteady.
  assert (∀ visit b w, range_order visit →
            code (response (serve visit (SetFailFast ch b) ep NewRecorder r w))
              = Some StatusServiceUnavailable
            ↔ ∃ n f, active ch ep !! n = Some (Some f) ∧ failing f) as H503.
  { intros visit b w Hv.
    assert (active (SetFailFast ch b) ep = active ch ep) as Hact
      by (by destruct ep).
    split.
    - intros Hcode.
      destruct (serve_get visit (SetFailFast ch b) ep NewRecorder r w Hv Hget)
        as (st' & Hs & _ & _ & Hr & Hok & _).
      rewrite Hs in Hcode. cbn [response code WriteHeader NewRecorder] in Hcode.
      destruct (calls_ok_or_failed (calls st')) as [H|H].
      + rewrite (Hok H) in Hcode. done.
      + apply Exists_exists in H as ([n e] & Hin & He).
        destruct (replay_calls_registered _ _ _ _ Hr n e Hin)
          as (f & w' & Hf & <-).
        rewrite Hact in Hf. exists n, f. split; [done|].
        destruct (Hsteady n f Hf) as [?|Hs']; [done|].
        destruct He. apply Hs'.
    - intros (n & f & Hn & Hf).
      apply (failing_check_gives_503 visit _ ep r w n f); try done. }
  assert (∀ visit b w,
            code (response (serve visit (SetFailFast ch b) ep NewRecorder r w))
              = Some StatusOK ∨
            code (response (serve visit (SetFailFast ch b) ep NewRecorder r w))
              = Some StatusServiceUnavailable) as Hcases.
  { intros visit b w. rewrite serve_handle, handle_get by done. cbv zeta.
    cbn [response code WriteHeader NewRecorder].
    destruct (range_sets_status (SetFailFast ch b) r
                (request_logger (SetFailFast ch b) r) visit
                [active (SetFailFast ch b) ep] (start w)) as [->| ->];
      [by left|by right]. }
  destruct (Hcases visit1 b1 w1) as [H1|H1], (Hcases visit2 b2 w2) as [H2|H2];
    try congruence.
  - apply (H503 visit2 b2 w2 Hv2), (H503 visit1 b1 w1 Hv1) in H2.
    rewrite H1 in H2. done.
  - apply (H503 visit1 b1 w1 Hv1), (H503 visit2 b2 w2 Hv2) in H1.
    rewrite H2 in H1. done.
Qed.

(** [handle] over several check sets with fail-fast: a failing check in
    the first set ends the request there; no check of a later set is
    called. *)
Theorem failfast_failure_skips_later_sets visit ch rw r m sets w n f :
  range_order visit →
  Method r = MethodGet →
  failFast ch = true →
  m !! n = Some (Some f) →
  failing f →
  handle visit ch rw r (m :: sets) w = handle visit ch rw r [m] w.
Proof.
  intros Hvisit Hget Hff Hn Hf.
  rewrite !handle_get by done. cbv zeta.
  apply (elem_of_visit visit Hvisit) in Hn.
  assert (∃ st', range_checks ch r (request_logger ch r) (visit m) (start w)
                 = Return st') as [st' Hst'].
  { destruct (range_checks_failfast ch r (request_logger ch r)
                (visit m) (start w) Hff)
      as [(st' & cs & _ & _ & _ & _ & _ & _ & Hall)
         |(st' & pre & n' & e & Heq & _)]; [|by exists st'].
    destruct (Hall n f Hn) as [w' Hw']. by destruct (Hf w'). }
  simpl. by rewrite Hst'.
Qed.

(** A GET request changes nothing of the response but the status line:
    for any response writer and any number of check sets the result is
    [WriteHeader] with 200 or with 503. *)
Theorem get_writes_only_the_status visit ch rw r sets w :
  Method r = MethodGet →
  (response (handle visit ch rw r sets w) = WriteHeader rw StatusOK ∨
   response (handle visit ch rw r sets w)
     = WriteHeader rw StatusServiceUnavailable) ∧
  header (response (handle visit ch rw r sets w)) = header rw ∧
  body (response (handle visit ch rw r sets w)) = body rw.
Proof.
  intros Hget. rewrite handle_get by done. cbv zeta. cbn [response].
  split_and!.
  - destruct (range_sets_status ch r (request_logger ch r) visit sets (start w))
      as [->| ->]; [by left|by right].
  - unfold WriteHeader. by destruct (code rw).
  - unfold WriteHeader. by destruct (code rw).
Qed.

(** ** The logger of a request *)

(** An entry in the request context whose logger does not discard its
    output takes the place of the logger of the registry: every record
    of the request goes to it, one error record for each failed call,
    in the order of the calls and with the reason of the failure. *)
Theorem context_logger_is_preferred visit ch ep rw r w e :
  range_order visit →
  Method r = MethodGet →
  Context r = Some e →
  Out (entry_Logger e) ≠ Discard →
  Forall (λ rec, log_to rec = entry_Logger e ∧ log_level rec = ErrorLevel ∧
                 log_fields rec = request_fields ch r)
         (written (serve visit ch ep rw r w)) ∧
  log_error <$> written (serve visit ch ep rw r w)
    = snd <$> filter (λ c, c.2 ≠ None) (invoked (serve visit ch ep rw r w)).
Proof.
  intros Hvisit Hget Hctx Hout.
  destruct (serve_get visit ch ep rw r w Hvisit Hget)
    as (st' & -> & _ & _ & _ & _ & _ & _ & ->).
  cbn [written invoked].
  assert (request_logger ch r = Some (entry_Logger e)) as ->.
  { unfold request_logger. rewrite Hctx. simpl. by rewrite decide_False. }
  apply error_records_some.
Qed.

(** Without an entry in the request context, or with one whose logger
    discards its output, the records go to the logger of the registry. *)
Theorem registry_logger_is_the_fallback visit ch ep rw r w l :
  range_order visit →
  Method r = MethodGet →
  logger ch = Some l →
  (Context r = None ∨
   ∃ e, Context r = Some e ∧ Out (entry_Logger e) = Discard) →
  Forall (λ rec, log_to rec = l ∧ log_level rec = ErrorLevel ∧
                 log_fields rec = request_fields ch r)
         (written (serve visit ch ep rw r w)) ∧
  log_error <$> written (serve visit ch ep rw r w)
    = snd <$> filter (λ c, c.2 ≠ None) (invoked (serve visit ch ep rw r w)).
Proof.
  intros Hvisit Hget Hl Hctx.
  destruct (serve_get visit ch ep rw r w Hvisit Hget)
    as (st' & -> & _ & _ & _ & _ & _ & _ & ->).
  cbn [written invoked].
  assert (request_logger ch r = Some l) as ->.
  { unfold request_logger.
    destruct Hctx as [->|(e & -> & Hout)]; simpl; [done|].
    by rewrite decide_True. }
  apply error_records_some.
Qed.

(** ** Fail-fast against the full evaluation *)

Lemma range_checks_failfast_prefix ch1 ch2 r1 r2 lg1 lg2 entries st1 st2 :
  failFast ch1 = true →
  agree st1 st2 →
  calls (ended (range_checks ch1 r1 lg1 entries st1))
    `prefix_of` calls (ended (range_checks ch2 r2 lg2 entries st2)) ∧
  status (ended (range_checks ch1 r1 lg1 entries st1))
    = status (ended (range_checks ch2 r2 lg2 entries st2)).
Proof.
  intros Hff. revert st1 st2.
  induction entries as [|[name [f|]] entries IH];
    intros st1 st2 (Hst & Herr & Hw & Hc); simpl.
  - by rewrite Hc, Hst.
  - rewrite Hff, <- Hw. destruct (f (world st1)) as [[e|] w'].
    + destruct (failFast ch2); simpl; [by rewrite Hc|].
      match goal with |- context [range_checks ch2 _ _ _ ?st'] =>
        destruct (range_checks_trace ch2 r2 lg2 entries st')
          as (cs & -> & _);
        destruct (range_checks_status ch2 r2 lg2 entries st') as [->| ->]
      end; simpl; (split; [|done]); rewrite Hc; by apply prefix_app_r.
    + apply IH. unfold agree. simpl. by rewrite Hc.
  - by apply IH.
Qed.

(** For the same order of visit and the same state of the checks,
    fail-fast changes neither the status nor any call it makes: its
    record of calls is an initial part of the record without fail-fast. *)
Theorem failfast_only_shortens_the_calls visit ch ep rw r w :
  Method r = MethodGet →
  invoked (serve visit (SetFailFast ch true) ep rw r w)
    `prefix_of` invoked (serve visit (SetFailFast ch false) ep rw r w) ∧
  response (serve visit (SetFailFast ch true) ep rw r w)
    = response (serve visit (SetFailFast ch false) ep rw r w).
Proof.
  intros Hget. rewrite !serve_handle, !handle_get by done. cbv zeta.
  cbn [invoked response]. rewrite !range_sets_single.
  replace (active (SetFailFast ch true) ep) with (active ch ep)
    by (by destruct ep).
  replace (active (SetFailFast ch false) ep) with (active ch ep)
    by (by destruct ep).
  destruct (range_checks_failfast_prefix
              (SetFailFast ch true) (SetFailFast ch false) r r
              (request_logger (SetFailFast ch true) r)
              (request_logger (SetFailFast ch false) r)
              (visit (active ch ep)) (start w) (start w))
    as [Hp Hs]; [done|done|].
  split; [done|]. by rewrite Hs.
Qed.

(** ** Construction *)

(** The constructor returns a registry exactly when both paths are not
    empty. *)
Theorem newChecksHandler_returns_iff (h p : string) :
  (∃ ch, @newChecksHandler W h p = Returned ch) ↔ h ≠ "" ∧ p ≠ "".
Proof.
  split.
  - intros [ch Hch]. by destruct h, p.
  - intros [Hh Hp]. destruct h as [|c1 h], p as [|c2 p]; try done.
    by eexists.
Qed.

(** For paths that are not empty the constructor returns a registry
    whose paths begin with a slash: a path that begins with one is
    stored as it is, any other path with one slash put before it.  The
    check sets are empty, fail-fast is off and there is no logger. *)
Theorem nonempty_paths_are_normalized (h p : string) :
  h ≠ "" →
  p ≠ "" →
  ∃ ch,
    @newChecksHandler W h p = Returned ch ∧
    livenessPath ch
      = (if decide (String.get 0 h = Some "/"%char) then h else "/" +:+ h) ∧
    readinessPath ch
      = (if decide (String.get 0 p = Some "/"%char) then p else "/" +:+ p) ∧
    starts_with_slash (livenessPath ch) ∧
    starts_with_slash (readinessPath ch) ∧
    livenessChecks ch = ∅ ∧ readinessChecks ch = ∅ ∧
    failFast ch = false ∧ logger ch = None.
Proof.
  intros Hh Hp. destruct h as [|c1 h], p as [|c2 p]; try done.
  destruct (newChecksHandler_normalizes (W:=W) c1 c2 h p)
    as (ch & Hch & Hl & Hr & Hsl & Hsr & ? & ? & ? & ?).
  exists ch. split_and!; try done.
  - rewrite Hl. simpl. by repeat case_decide; simplify_eq.
  - rewrite Hr. simpl. by repeat case_decide; simplify_eq.
Qed.

(** Normalisation is idempotent: constructing again with the stored
    paths gives the same registry. *)
Theorem normalization_is_idempotent (h p : string) ch :
  newChecksHandler h p = Returned ch →
  newChecksHandler (livenessPath ch) (readinessPath ch) = Returned ch.
Proof.
  destruct h as [|c1 h], p as [|c2 p]; try done.
  unfold newChecksHandler. simpl. intros [= <-]. simpl.
  by repeat case_decide; simplify_eq.
Qed.

Lemma operate_all_paths ch (ops : list (@operation W)) :
  livenessPath (operate_all ch ops) = livenessPath ch ∧
  readinessPath (operate_all ch ops) = readinessPath ch.
Proof.
  revert ch. induction ops as [|op ops IH]; intros ch; [done|]. simpl.
  destruct (IH (operate ch op)) as [-> ->].
  destruct op as [reg|b|l]; simpl; [|done|done].
  by destruct (register_fields ch reg) as (-> & -> & _).
Qed.

(** No operation on a constructed registry changes its paths: after any
    sequence, in any order, of registrations, settings of fail-fast and
    settings of the logger they are the normalised paths of the
    construction. *)
Theorem paths_stay_normalized (h p : string) ch (ops : list (@operation W)) :
  newChecksHandler h p = Returned ch →
  livenessPath (operate_all ch ops) = livenessPath ch ∧
  readinessPath (operate_all ch ops) = readinessPath ch ∧
  starts_with_slash (livenessPath (operate_all ch ops)) ∧
  starts_with_slash (readinessPath (operate_all ch ops)).
Proof.
  intros Hch.
  destruct (operate_all_paths ch ops) as [-> ->].
  destruct h as [|c1 h], p as [|c2 p]; try done.
  destruct (newChecksHandler_normalizes (W:=W) c1 c2 h p)
    as (ch' & Hch' & _ & _ & ? & ? & _).
  rewrite Hch in Hch'. by simplify_eq.
Qed.

Lemma foldl_WithLogger ch (ls : list (option Logger)) :
  let ch' := foldl (λ ch option, option ch) ch (WithLogger <$> ls) in
  logger ch' = default (logger ch) (last ls) ∧
  livenessPath ch' = livenessPath ch ∧
  readinessPath ch' = readinessPath ch ∧
  livenessChecks ch' = livenessChecks ch ∧
  readinessChecks ch' = readinessChecks ch ∧
  failFast ch' = failFast ch.
Proof.
  induction ls as [|l ls IH] using rev_ind; [done|].
  rewrite fmap_app, foldl_app, last_snoc. simpl.
  by destruct IH as (_ & ? & ? & ? & ? & ?).
Qed.

(** Options are applied in the order given: of several [WithLogger]
    options the last one sets the logger; the paths are those of the
    plain constructor, the check sets are empty and fail-fast is off. *)
Theorem last_logger_option_wins (h p : string) ch (ls : list (option Logger)) :
  newChecksHandler h p = Returned ch →
  ∃ ch',
    NewChecksHandlerWithOptions h p (WithLogger <$> ls) = Returned ch' ∧
    logger ch' = default None (last ls) ∧
    livenessPath ch' = livenessPath ch ∧
    readinessPath ch' = readinessPath ch ∧
    livenessChecks ch' = ∅ ∧ readinessChecks ch' = ∅ ∧
    failFast ch' = false.
Proof.
  intros Hch. unfold NewChecksHandlerWithOptions. rewrite Hch. simpl.
  eexists. split; [reflexivity|].
  destruct (foldl_WithLogger ch ls) as (-> & -> & -> & -> & -> & ->).
  destruct h as [|c1 h], p as [|c2 p]; try done.
  unfold newChecksHandler in Hch. simpl in Hch. by injection Hch as <-.
Qed.

(** ** Registrations *)

Lemma liveness_after_app m regs regs' :
  liveness_after m (regs ++ regs') = liveness_after (liveness_after m regs) regs'.
Proof. apply foldl_app. Qed.

Lemma readiness_after_app m regs regs' :
  readiness_after m (regs ++ regs')
    = readiness_after (readiness_after m regs) regs'.
Proof. apply foldl_app. Qed.

Lemma liveness_after_other m regs name :
  (∀ c, Liveness name c ∉ regs) →
  liveness_after m regs !! name = m !! name.
Proof.
  revert m. induction regs as [|[n c|n c] regs IH]; intros m Hnot; [done| |].
  - change (liveness_after m (Liveness n c :: regs))
      with (liveness_after (<[n := c]> m) regs).
    rewrite IH by (intros c' ?; apply (Hnot c'); by right).
    apply lookup_insert_ne. intros ->. apply (Hnot c). by left.
  - change (liveness_after m (Readiness n c :: regs))
      with (liveness_after m regs).
    apply IH. intros c' ?. apply (Hnot c'). by right.
Qed.

Lemma readiness_after_other m regs name :
  (∀ c, Readiness name c ∉ regs) →
  readiness_after m regs !! name = m !! name.
Proof.
  revert m. induction regs as [|[n c|n c] regs IH]; intros m Hnot; [done| |].
  - change (readiness_after m (Liveness n c :: regs))
      with (readiness_after m regs).
    apply IH. intros c' ?. apply (Hnot c'). by right.
  - change (readiness_after m (Readiness n c :: regs))
      with (readiness_after (<[n := c]> m) regs).
    rewrite IH by (intros c' ?; apply (Hnot c'); by right).
    apply lookup_insert_ne. intros ->. apply (Hnot c). by left.
Qed.

(** Of the registrations under one name in the set of an endpoint the
    last one is the check found there, whatever was registered before
    it, and whatever is registered after it under other names or, under
    any name, in the other set. *)
Theorem last_registration_wins ch ep regs regs' name c :
  (∀ c', registration_in ep name c' ∉ regs') →
  active (register_all ch (regs ++ registration_in ep name c :: regs')) ep
    !! name = Some c.
Proof.
  intros Hlater. destruct ep; simpl in *.
  - rewrite (proj2 (register_all_checks ch _)), readiness_after_app.
    change (readiness_after ?m (Readiness name c :: regs'))
      with (readiness_after (<[name := c]> m) regs').
    rewrite readiness_after_other by done. apply lookup_insert_eq.
  - rewrite (proj1 (register_all_checks ch _)), liveness_after_app.
    change (liveness_after ?m (Liveness name c :: regs'))
      with (liveness_after (<[name := c]> m) regs').
    rewrite liveness_after_other by done. apply lookup_insert_eq.
Qed.

(** No registration removes a name: the names of both sets only grow. *)
Theorem registrations_never_remove ch regs :
  dom (livenessChecks ch) ⊆ dom (livenessChecks (register_all ch regs)) ∧
  dom (readinessChecks ch) ⊆ dom (readinessChecks (register_all ch regs)) ∧
  (size (livenessChecks ch) ≤ size (livenessChecks (register_all ch regs)))%nat ∧
  (size (readinessChecks ch)
     ≤ size (readinessChecks (register_all ch regs)))%nat.
Proof.
  assert (dom (livenessChecks ch) ⊆ dom (livenessChecks (register_all ch regs)) ∧
          dom (readinessChecks ch) ⊆ dom (readinessChecks (register_all ch regs)))
    as [Hl Hr].
  { revert ch. induction regs as [|reg regs IH]; intros ch; [done|].
    destruct (IH (register ch reg)) as [Hl Hr]. simpl.
    split; (etrans; [|eassumption]); destruct reg; simpl;
      rewrite ?dom_insert_L; apply union_subseteq_r || done. }
  split_and!; try done.
  - rewrite <- !size_dom. by apply subseteq_size.
  - rewrite <- !size_dom. by apply subseteq_size.
Qed.

(** The fail-fast flag is what was set last, whatever is registered
    before or after; setting it changes no check set, and a constructed
    registry has it off. *)
Theorem failfast_flag_survives_registrations ch regs regs' b b' :
  GetFailFast (register_all (SetFailFast (register_all ch regs) b) regs') = b ∧
  GetFailFast (SetFailFast (SetFailFast ch b') b) = b ∧
  livenessChecks (register_all (SetFailFast ch b) regs)
    = livenessChecks (register_all ch regs) ∧
  readinessChecks (register_all (SetFailFast ch b) regs)
    = readinessChecks (register_all ch regs).
Proof.
  split_and!.
  - unfold GetFailFast.
    by destruct (register_all_fields (SetFailFast (register_all ch regs) b) regs')
      as (_ & _ & -> & _).
  - done.
  - by rewrite !(proj1 (register_all_checks _ regs)).
  - by rewrite !(proj2 (register_all_checks _ regs)).
Qed.

(** A check registered again under the same name is replaced: requests
    are evaluated as if only the later registration had been made. *)
Theorem overwritten_check_is_not_evaluated visit ch rw r w name c1 c2 :
  healthEndpoint visit (AddLiveness (AddLiveness ch name c1).1 name c2).1 rw r w
    = healthEndpoint visit (AddLiveness ch name c2).1 rw r w ∧
  readyEndpoint visit (AddReadiness (AddReadiness ch name c1).1 name c2).1 rw r w
    = readyEndpoint visit (AddReadiness ch name c2).1 rw r w.
Proof.
  unfold healthEndpoint, readyEndpoint. simpl. rewrite !insert_insert_eq.
  split; by apply handle_ext.
Qed.

(** ** Routing *)

Lemma registerMux_returned ch (mux mux' : gmap string endpoint) :
  (registerMux ch mux).1 = Returned mux' ↔
    readinessPath ch ≠ "" ∧ livenessPath ch ≠ "" ∧
    livenessPath ch ≠ readinessPath ch ∧
    mux !! readinessPath ch = None ∧ mux !! livenessPath ch = None ∧
    mux' = <[livenessPath ch := HealthEndpoint]>
             (<[readinessPath ch := ReadyEndpoint]> mux).
Proof.
  unfold registerMux, HandleFunc. simpl.
  destruct (decide (readinessPath ch = "")) as [Hr|Hr];
    [split; [done|by intros (? & _)]|].
  destruct (mux !! readinessPath ch) as [ep|] eqn:Hmr;
    [split; [done|by intros (_ & _ & _ & ? & _)]|]. simpl.
  destruct (decide (livenessPath ch = "")) as [Hl|Hl];
    [split; [done|by intros (_ & ? & _)]|].
  destruct (decide (livenessPath ch = readinessPath ch)) as [Heq|Hne].
  - rewrite Heq, lookup_insert_eq. split; [done|by intros (_ & _ & ? & _)].
  - rewrite lookup_insert_ne by done.
    destruct (mux !! livenessPath ch) as [ep|] eqn:Hml;
      [split; [done|by intros (_ & _ & _ & _ & ? & _)]|].
    split; [by intros [= <-]|by intros (_ & _ & _ & _ & _ & ->)].
Qed.

Lemma Handler_registerMux ch : (Handler ch).1 = (registerMux ch NewServeMux).1.
Proof. unfold Handler. by destruct (registerMux ch NewServeMux). Qed.

Lemma RegisterHandler_registerMux ch (mux : gmap string endpoint) :
  (RegisterHandler ch mux).1 = (registerMux ch mux).1.
Proof. unfold RegisterHandler. by destruct (registerMux ch mux). Qed.

(** When [Handler] returns a router, the two paths are not empty and
    differ, and the router holds the two patterns and nothing else: the
    liveness path for the liveness endpoint and the readiness path for
    the readiness endpoint. *)
Theorem Handler_returned_router ch (mux : gmap string endpoint) :
  (Handler ch).1 = Returned mux →
  readinessPath ch ≠ "" ∧ livenessPath ch ≠ "" ∧
  livenessPath ch ≠ readinessPath ch ∧
  mux = <[livenessPath ch := HealthEndpoint]>
          {[readinessPath ch := ReadyEndpoint]} ∧
  mux !! livenessPath ch = Some HealthEndpoint ∧
  mux !! readinessPath ch = Some ReadyEndpoint ∧
  size mux = 2%nat.
Proof.
  rewrite Handler_registerMux.
  intros (Hr & Hl & Hne & _ & _ & ->)%registerMux_returned.
  unfold NewServeMux. rewrite insert_empty. split_and!; try done.
  - apply lookup_insert_eq.
  - rewrite lookup_insert_ne by done. apply lookup_singleton_eq.
  - rewrite map_size_insert_None, map_size_singleton; [done|].
    by apply lookup_singleton_ne.
Qed.

(** When [RegisterHandler] returns, both patterns were new to the
    router; it has added the two patterns and left every other pattern
    as it was, and a second [RegisterHandler] on the router it returned
    panics. *)
Theorem RegisterHandler_twice_panics ch (mux mux' : gmap string endpoint) :
  (RegisterHandler ch mux).1 = Returned mux' →
  mux !! readinessPath ch = None ∧ mux !! livenessPath ch = None ∧
  mux' !! livenessPath ch = Some HealthEndpoint ∧
  mux' !! readinessPath ch = Some ReadyEndpoint ∧
  (∀ pattern, pattern ≠ livenessPath ch → pattern ≠ readinessPath ch →
     mux' !! pattern = mux !! pattern) ∧
  panics (RegisterHandler ch mux').1.
Proof.
  rewrite !RegisterHandler_registerMux.
  intros (Hr & Hl & Hne & Hmr & Hml & ->)%registerMux_returned.
  split_and!; try done.
  - apply lookup_insert_eq.
  - rewrite lookup_insert_ne by done. apply lookup_insert_eq.
  - intros pattern ? ?. by rewrite !lookup_insert_ne.
  - destruct (registerMux ch _).1 as [mux''|q] eqn:Hagain; [|by exists q].
    apply registerMux_returned in Hagain as (_ & _ & _ & _ & Hfree & _).
    by rewrite lookup_insert_eq in Hfree.
Qed.

End FurtherFacts.

(** ** The properties at the counting fixture *)

Lemma range_order_map_to_list {W : Type} :
  @range_order W map_to_list.
Proof. intros m. reflexivity. Qed.

(** The fixture is what the constructor and the registrations build. *)
Example fixture_constructed :
  newChecksHandler "/live" "/ready" = Returned Fixture.fresh ∧
  newChecksHandler "health" "/health" = Returned Fixture.same_paths.
Proof. split; reflexivity. Qed.

(** The example of the specification: readiness check "db" always fails;
    GET on the readiness endpoint gives 503, on the liveness endpoint
    200, and the counters show one call of each check evaluated. *)
Example fixture_readiness_503_liveness_200 :
  code (response (serve map_to_list Fixture.registered ReadyEndpoint
                        NewRecorder Fixture.get ∅)) = Some 503 ∧
  final (serve map_to_list Fixture.registered ReadyEndpoint
               NewRecorder Fixture.get ∅)
    = {[ "db" := 1%nat; "cache" := 1%nat ]} ∧
  code (response (serve map_to_list Fixture.registered HealthEndpoint
                        NewRecorder Fixture.get ∅)) = Some 200 ∧
  final (serve map_to_list Fixture.registered HealthEndpoint
               NewRecorder Fixture.get ∅)
    = {[ "self" := 1%nat ]}.
Proof. split_and!; by vm_compute. Qed.

Lemma failing_check_without_failfast_witness :
  code (response (serve map_to_list Fixture.registered ReadyEndpoint
                        NewRecorder Fixture.get ∅))
    = Some StatusServiceUnavailable ∧
  (∀ n g, active Fixture.registered ReadyEndpoint !! n = Some (Some g) →
     times_invoked n (invoked (serve map_to_list Fixture.registered
                                ReadyEndpoint NewRecorder Fixture.get ∅))
       = 1%nat) ∧
  (∀ n, active Fixture.registered ReadyEndpoint !! n = None ∨
        active Fixture.registered ReadyEndpoint !! n = Some None →
     times_invoked n (invoked (serve map_to_list Fixture.registered
                                ReadyEndpoint NewRecorder Fixture.get ∅))
       = 0%nat) ∧
  (invoked (serve map_to_list Fixture.registered ReadyEndpoint
                  NewRecorder Fixture.get ∅)).*1
    = checked (map_to_list (active Fixture.registered ReadyEndpoint)) ∧
  replay (active Fixture.registered ReadyEndpoint) ∅
         (invoked (serve map_to_list Fixture.registered ReadyEndpoint
                         NewRecorder Fixture.get ∅))
    = Some (final (serve map_to_list Fixture.registered ReadyEndpoint
                         NewRecorder Fixture.get ∅)).
Proof.
  apply (failing_check_without_failfast map_to_list Fixture.registered
           ReadyEndpoint Fixture.get ∅ "db" Fixture.refused).
  - intros m. reflexivity.
  - reflexivity.
  - reflexivity.
  - vm_compute. reflexivity.
  - intros w. simpl. discriminate.
Defined.

(** With fail-fast the calls made depend on the order of the visit: in
    the order of [map_to_list], "cache" comes before "db" and both are
    called; in the reverse order "db" comes first and "cache" is never
    called.  The status is 503 in both. *)
Example fixture_failfast_stops :
  invoked (serve map_to_list (SetFailFast Fixture.registered true)
                 ReadyEndpoint NewRecorder Fixture.get ∅)
    = [("cache", None); ("db", Some "connection refused")] ∧
  invoked (serve Fixture.backwards (SetFailFast Fixture.registered true)
                 ReadyEndpoint NewRecorder Fixture.get ∅)
    = [("db", Some "connection refused")] ∧
  final (serve Fixture.backwards (SetFailFast Fixture.registered true)
               ReadyEndpoint NewRecorder Fixture.get ∅)
    = {[ "db" := 1%nat ]} ∧
  code (response (serve Fixture.backwards (SetFailFast Fixture.registered true)
                        ReadyEndpoint NewRecorder Fixture.get ∅))
    = Some 503.
Proof. split_and!; by vm_compute. Qed.

Lemma range_order_backwards : range_order Fixture.backwards.
Proof. intros m. apply reverse_Permutation. Qed.

Lemma failing_check_with_failfast_witness :
  code (response (serve Fixture.backwards (SetFailFast Fixture.registered true)
                        ReadyEndpoint NewRecorder Fixture.get ∅))
    = Some StatusServiceUnavailable ∧
  (length (invoked (serve Fixture.backwards
                          (SetFailFast Fixture.registered true)
                          ReadyEndpoint NewRecorder Fixture.get ∅))
     ≤ size (active (SetFailFast Fixture.registered true) ReadyEndpoint))%nat ∧
  (∀ n, (times_invoked n
           (invoked (serve Fixture.backwards
                           (SetFailFast Fixture.registered true)
                           ReadyEndpoint NewRecorder Fixture.get ∅))
           ≤ 1)%nat) ∧
  (invoked (serve Fixture.backwards (SetFailFast Fixture.registered true)
                  ReadyEndpoint NewRecorder Fixture.get ∅)).*1
    `prefix_of` checked (Fixture.backwards
       (active (SetFailFast Fixture.registered true) ReadyEndpoint)) ∧
  replay (active (SetFailFast Fixture.registered true) ReadyEndpoint) ∅
         (invoked (serve Fixture.backwards
                         (SetFailFast Fixture.registered true)
                         ReadyEndpoint NewRecorder Fixture.get ∅))
    = Some (final (serve Fixture.backwards
                         (SetFailFast Fixture.registered true)
                         ReadyEndpoint NewRecorder Fixture.get ∅)) ∧
  ∃ pre n e g w0,
    invoked (serve Fixture.backwards (SetFailFast Fixture.registered true)
                   ReadyEndpoint NewRecorder Fixture.get ∅)
      = pre ++ [(n, Some e)] ∧
    Forall (λ c, c.2 = None) pre ∧
    active (SetFailFast Fixture.registered true) ReadyEndpoint !! n
      = Some (Some g) ∧
    replay (active (SetFailFast Fixture.registered true) ReadyEndpoint) ∅ pre
      = Some w0 ∧
    g w0 = (Some e,
            final (serve Fixture.backwards
                         (SetFailFast Fixture.registered true)
                         ReadyEndpoint NewRecorder Fixture.get ∅)) ∧
    failures (serve Fixture.backwards (SetFailFast Fixture.registered true)
                    ReadyEndpoint NewRecorder Fixture.get ∅)
      = Some {[n := e]}.
Proof.
  apply (failing_check_with_failfast Fixture.backwards
           (SetFailFast Fixture.registered true)
           ReadyEndpoint Fixture.get ∅ "db" Fixture.refused).
  - intros m. apply reverse_Permutation.
  - reflexivity.
  - reflexivity.
  - vm_compute. reflexivity.
  - intros w. simpl. discriminate.
Defined.

Lemma non_get_method_not_allowed_witness :
  code (response (serve map_to_list Fixture.registered ReadyEndpoint
                        NewRecorder Fixture.post ∅))
    = Some StatusMethodNotAllowed ∧
  body (response (serve map_to_list Fixture.registered ReadyEndpoint
                        NewRecorder Fixture.post ∅))
    = "Method Not Allowed" +:+ String "010"%char "" ∧
  failures (serve map_to_list Fixture.registered ReadyEndpoint
                  NewRecorder Fixture.post ∅) = None ∧
  invoked (serve map_to_list Fixture.registered ReadyEndpoint
                 NewRecorder Fixture.post ∅) = [] ∧
  final (serve map_to_list Fixture.registered ReadyEndpoint
               NewRecorder Fixture.post ∅) = ∅.
Proof.
  apply (non_get_method_not_allowed map_to_list Fixture.registered
           ReadyEndpoint Fixture.post ∅).
  vm_compute. discriminate.
Defined.

Lemma empty_check_set_is_healthy_witness :
  code (response (serve map_to_list Fixture.fresh HealthEndpoint
                        NewRecorder Fixture.get ∅)) = Some StatusOK.
Proof.
  apply (empty_check_set_is_healthy map_to_list Fixture.fresh
           HealthEndpoint Fixture.get ∅).
  - intros m. reflexivity.
  - reflexivity.
  - reflexivity.
Defined.

Lemma get_response_body_empty_witness :
  body (response (serve map_to_list Fixture.registered ReadyEndpoint
                        NewRecorder Fixture.get ∅)) = "" ∧
  header (response (serve map_to_list Fixture.registered ReadyEndpoint
                          NewRecorder Fixture.get ∅)) = [] ∧
  (code (response (serve map_to_list Fixture.registered ReadyEndpoint
                         NewRecorder Fixture.get ∅)) = Some StatusOK ∨
   code (response (serve map_to_list Fixture.registered ReadyEndpoint
                         NewRecorder Fixture.get ∅))
     = Some StatusServiceUnavailable) ∧
  is_Some (failures (serve map_to_list Fixture.registered ReadyEndpoint
                           NewRecorder Fixture.get ∅)).
Proof.
  apply (get_response_body_empty map_to_list Fixture.registered
           ReadyEndpoint Fixture.get ∅).
  reflexivity.
Defined.

Lemma equal_paths_panic_witness :
  panics (Handler Fixture.same_paths).1 ∧
  ∀ mux, panics (RegisterHandler Fixture.same_paths mux).1.
Proof.
  apply (equal_paths_panic Fixture.same_paths).
  reflexivity.
Defined.

(** With distinct paths and a new router [Handler] returns a router
    that holds both patterns. *)
Example fixture_handler_routes :
  ∃ mux, (Handler Fixture.fresh).1 = Returned mux ∧
         mux !! "/live" = Some HealthEndpoint ∧
         mux !! "/ready" = Some ReadyEndpoint.
Proof. eexists. split_and!; by vm_compute. Qed.

(** A logger on the registry writes the diagnostics and leaves the
    response as it is without one. *)
Example fixture_logger_writes :
  length (written (serve map_to_list
                     (WithLogger (Some Fixture.stderr) Fixture.registered)
                     ReadyEndpoint NewRecorder Fixture.get ∅)) = 1%nat ∧
  response (serve map_to_list
              (WithLogger (Some Fixture.stderr) Fixture.registered)
              ReadyEndpoint NewRecorder Fixture.get ∅)
    = response (serve map_to_list Fixture.registered
                      ReadyEndpoint NewRecorder Fixture.get ∅).
Proof. split; by vm_compute. Qed.

(** ** The further properties at the counting fixture *)

Lemma only_registered_checks_are_called_witness :
  (∀ n e, (n, e) ∈ invoked (serve map_to_list
             (SetFailFast Fixture.registered true) ReadyEndpoint
             NewRecorder Fixture.get ∅) →
     ∃ f, active (SetFailFast Fixture.registered true) ReadyEndpoint !! n
          = Some (Some f)) ∧
  (∀ n, (times_invoked n (invoked (serve map_to_list
           (SetFailFast Fixture.registered true) ReadyEndpoint
           NewRecorder Fixture.get ∅)) ≤ 1)%nat) ∧
  (length (invoked (serve map_to_list
             (SetFailFast Fixture.registered true) ReadyEndpoint
             NewRecorder Fixture.get ∅))
     ≤ size (active (SetFailFast Fixture.registered true) ReadyEndpoint))%nat ∧
  (invoked (serve map_to_list (SetFailFast Fixture.registered true)
                  ReadyEndpoint NewRecorder Fixture.get ∅)).*1
    `prefix_of` checked (map_to_list
       (active (SetFailFast Fixture.registered true) ReadyEndpoint)).
Proof.
  apply (only_registered_checks_are_called map_to_list
           (SetFailFast Fixture.registered true) ReadyEndpoint
           NewRecorder Fixture.get ∅).
  - intros m. reflexivity.
  - reflexivity.
Defined.

Lemma calls_account_for_the_state_witness :
  replay (active Fixture.registered ReadyEndpoint) ∅
         (invoked (serve map_to_list Fixture.registered ReadyEndpoint
                         NewRecorder Fixture.get ∅))
    = Some (final (serve map_to_list Fixture.registered ReadyEndpoint
                         NewRecorder Fixture.get ∅)).
Proof.
  apply (calls_account_for_the_state map_to_list Fixture.registered
           ReadyEndpoint NewRecorder Fixture.get ∅).
  - intros m. reflexivity.
  - reflexivity.
Defined.

Lemma status_reflects_failed_calls_witness :
  (code (response (serve map_to_list Fixture.registered ReadyEndpoint
                         NewRecorder Fixture.get ∅))
     = Some StatusServiceUnavailable
   ↔ Exists (λ c, c.2 ≠ None)
       (invoked (serve map_to_list Fixture.registered ReadyEndpoint
                       NewRecorder Fixture.get ∅))) ∧
  (code (response (serve map_to_list Fixture.registered ReadyEndpoint
                         NewRecorder Fixture.get ∅)) = Some StatusOK
   ↔ Forall (λ c, c.2 = None)
       (invoked (serve map_to_list Fixture.registered ReadyEndpoint
                       NewRecorder Fixture.get ∅))) ∧
  ∃ fs, failures (serve map_to_list Fixture.registered ReadyEndpoint
                        NewRecorder Fixture.get ∅) = Some fs ∧
        ∀ n e, fs !! n = Some e
               ↔ (n, Some e) ∈ invoked (serve map_to_list Fixture.registered
                                          ReadyEndpoint NewRecorder
                                          Fixture.get ∅).
Proof.
  apply (status_reflects_failed_calls map_to_list Fixture.registered
           ReadyEndpoint Fixture.get ∅).
  - intros m. reflexivity.
  - reflexivity.
Defined.

Lemma succeeding_checks_give_200_witness :
  code (response (serve map_to_list Fixture.registered HealthEndpoint
                        NewRecorder Fixture.get ∅)) = Some StatusOK ∧
  failures (serve map_to_list Fixture.registered HealthEndpoint
                  NewRecorder Fixture.get ∅) = Some ∅ ∧
  written (serve map_to_list Fixture.registered HealthEndpoint
                 NewRecorder Fixture.get ∅) = [] ∧
  (invoked (serve map_to_list Fixture.registered HealthEndpoint
                  NewRecorder Fixture.get ∅)).*1
    = checked (map_to_list (active Fixture.registered HealthEndpoint)) ∧
  (∀ n f, active Fixture.registered HealthEndpoint !! n = Some (Some f) →
     times_invoked n (invoked (serve map_to_list Fixture.registered
                                HealthEndpoint NewRecorder Fixture.get ∅))
       = 1%nat).
Proof.
  apply (succeeding_checks_give_200 map_to_list Fixture.registered
           HealthEndpoint Fixture.get ∅).
  - intros m. reflexivity.
  - reflexivity.
  - intros n f Hn w.
    change (active Fixture.registered HealthEndpoint)
      with (<["self" := Fixture.counting "self" None]>
              (∅ : gmap string (@Check (gmap string nat)))) in Hn.
    apply lookup_insert_Some in Hn as [[_ Hf]|[_ Hn]].
    + injection Hf as <-. reflexivity.
    + rewrite lookup_empty in Hn. discriminate.
Defined.

Lemma without_failfast_every_check_is_called_witness :
  (invoked (serve map_to_list Fixture.registered ReadyEndpoint
                  NewRecorder Fixture.get ∅)).*1
    = checked (map_to_list (active Fixture.registered ReadyEndpoint)) ∧
  (∀ n f, active Fixture.registered ReadyEndpoint !! n = Some (Some f) →
     times_invoked n (invoked (serve map_to_list Fixture.registered
                                ReadyEndpoint NewRecorder Fixture.get ∅))
       = 1%nat).
Proof.
  apply (without_failfast_every_check_is_called map_to_list
           Fixture.registered ReadyEndpoint NewRecorder Fixture.get ∅).
  - intros m. reflexivity.
  - reflexivity.
  - reflexivity.
Defined.

Lemma status_independent_of_failfast_and_order_witness :
  code (response (serve map_to_list (SetFailFast Fixture.registered true)
                        ReadyEndpoint NewRecorder Fixture.get ∅))
    = code (response (serve Fixture.backwards
                        (SetFailFast Fixture.registered false)
                        ReadyEndpoint NewRecorder Fixture.get {["db" := 5%nat]})).
Proof.
  apply (status_independent_of_failfast_and_order map_to_list
           Fixture.backwards Fixture.registered ReadyEndpoint Fixture.get
           ∅ {["db" := 5%nat]} true false).
  - intros m. reflexivity.
  - intros m. apply reverse_Permutation.
  - reflexivity.
  - intros n f Hn.
    change (active Fixture.registered ReadyEndpoint)
      with (<["off" := None]>
              (<["cache" := Fixture.counting "cache" None]>
                 (<["db" := Some Fixture.refused]>
                    (∅ : gmap string (@Check (gmap string nat)))))) in Hn.
    apply lookup_insert_Some in Hn as [[_ Hf]|[_ Hn]]; [discriminate|].
    apply lookup_insert_Some in Hn as [[_ Hf]|[_ Hn]].
    { right. injection Hf as <-. intros w. reflexivity. }
    apply lookup_insert_Some in Hn as [[_ Hf]|[_ Hn]].
    { left. injection Hf as <-. intros w. simpl. discriminate. }
    rewrite lookup_empty in Hn. discriminate.
Defined.

Lemma failfast_failure_skips_later_sets_witness :
  handle map_to_list (SetFailFast Fixture.registered true) NewRecorder
         Fixture.get
         [readinessChecks Fixture.registered; livenessChecks Fixture.registered]
         ∅
    = handle map_to_list (SetFailFast Fixture.registered true) NewRecorder
             Fixture.get [readinessChecks Fixture.registered] ∅.
Proof.
  apply (failfast_failure_skips_later_sets map_to_list
           (SetFailFast Fixture.registered true) NewRecorder Fixture.get
           (readinessChecks Fixture.registered)
           [livenessChecks Fixture.registered] ∅ "db" Fixture.refused).
  - intros m. reflexivity.
  - reflexivity.
  - reflexivity.
  - vm_compute. reflexivity.
  - intros w. simpl. discriminate.
Defined.

Lemma get_writes_only_the_status_witness :
  (response (handle map_to_list Fixture.registered NewRecorder Fixture.get
                    [readinessChecks Fixture.registered] ∅)
     = WriteHeader NewRecorder StatusOK ∨
   response (handle map_to_list Fixture.registered NewRecorder Fixture.get
                    [readinessChecks Fixture.registered] ∅)
     = WriteHeader NewRecorder StatusServiceUnavailable) ∧
  header (response (handle map_to_list Fixture.registered NewRecorder
                           Fixture.get [readinessChecks Fixture.registered] ∅))
    = header NewRecorder ∧
  body (response (handle map_to_list Fixture.registered NewRecorder
                         Fixture.get [readinessChecks Fixture.registered] ∅))
    = body NewRecorder.
Proof.
  apply (get_writes_only_the_status map_to_list Fixture.registered
           NewRecorder Fixture.get [readinessChecks Fixture.registered] ∅).
  reflexivity.
Defined.

Lemma context_logger_is_preferred_witness :
  Forall (λ rec, log_to rec = {| Out := Sink 7 |} ∧
                 log_level rec = ErrorLevel ∧
                 log_fields rec
                   = request_fields
                       (WithLogger (Some Fixture.stderr) Fixture.registered)
                       Fixture.get_logged)
         (written (serve map_to_list
                     (WithLogger (Some Fixture.stderr) Fixture.registered)
                     ReadyEndpoint NewRecorder Fixture.get_logged ∅)) ∧
  log_error <$> written (serve map_to_list
                           (WithLogger (Some Fixture.stderr) Fixture.registered)
                           ReadyEndpoint NewRecorder Fixture.get_logged ∅)
    = snd <$> filter (λ c, c.2 ≠ None)
                (invoked (serve map_to_list
                            (WithLogger (Some Fixture.stderr) Fixture.registered)
                            ReadyEndpoint NewRecorder Fixture.get_logged ∅)).
Proof.
  apply (context_logger_is_preferred map_to_list
           (WithLogger (Some Fixture.stderr) Fixture.registered)
           ReadyEndpoint NewRecorder Fixture.get_logged ∅
           {| entry_Logger := {| Out := Sink 7 |} |}).
  - intros m. reflexivity.
  - reflexivity.
  - reflexivity.
  - simpl. discriminate.
Defined.

Lemma registry_logger_is_the_fallback_witness :
  Forall (λ rec, log_to rec = Fixture.stderr ∧
                 log_level rec = ErrorLevel ∧
                 log_fields rec
                   = request_fields
                       (WithLogger (Some Fixture.stderr) Fixture.registered)
                       Fixture.get)
         (written (serve map_to_list
                     (WithLogger (Some Fixture.stderr) Fixture.registered)
                     ReadyEndpoint NewRecorder Fixture.get ∅)) ∧
  log_error <$> written (serve map_to_list
                           (WithLogger (Some Fixture.stderr) Fixture.registered)
                           ReadyEndpoint NewRecorder Fixture.get ∅)
    = snd <$> filter (λ c, c.2 ≠ None)
                (invoked (serve map_to_list
                            (WithLogger (Some Fixture.stderr) Fixture.registered)
                            ReadyEndpoint NewRecorder Fixture.get ∅)).
Proof.
  apply (registry_logger_is_the_fallback map_to_list
           (WithLogger (Some Fixture.stderr) Fixture.registered)
           ReadyEndpoint NewRecorder Fixture.get ∅ Fixture.stderr).
  - intros m. reflexivity.
  - reflexivity.
  - reflexivity.
  - left. reflexivity.
Defined.

(** The records of the two requests above: one error record with the
    reason of "db", to the logger of the context in the first and to
    the logger of the registry in the second. *)
Example fixture_error_records :
  (λ rec, (log_to rec, log_error rec))
    <$> written (serve map_to_list
                   (WithLogger (Some Fixture.stderr) Fixture.registered)
                   ReadyEndpoint NewRecorder Fixture.get_logged ∅)
    = [({| Out := Sink 7 |}, Some "connection refused")] ∧
  (λ rec, (log_to rec, log_error rec))
    <$> written (serve map_to_list
                   (WithLogger (Some Fixture.stderr) Fixture.registered)
                   ReadyEndpoint NewRecorder Fixture.get ∅)
    = [(Fixture.stderr, Some "connection refused")].
Proof. split; by vm_compute. Qed.

Lemma failfast_only_shortens_the_calls_witness :
  invoked (serve Fixture.backwards (SetFailFast Fixture.registered true)
                 ReadyEndpoint NewRecorder Fixture.get ∅)
    `prefix_of` invoked (serve Fixture.backwards
                           (SetFailFast Fixture.registered false)
                           ReadyEndpoint NewRecorder Fixture.get ∅) ∧
  response (serve Fixture.backwards (SetFailFast Fixture.registered true)
                  ReadyEndpoint NewRecorder Fixture.get ∅)
    = response (serve Fixture.backwards (SetFailFast Fixture.registered false)
                      ReadyEndpoint NewRecorder Fixture.get ∅).
Proof.
  apply (failfast_only_shortens_the_calls Fixture.backwards
           Fixture.registered ReadyEndpoint NewRecorder Fixture.get ∅).
  reflexivity.
Defined.

Lemma normalization_is_idempotent_witness :
  newChecksHandler (livenessPath Fixture.health_ready)
                   (readinessPath Fixture.health_ready)
    = Returned Fixture.health_ready.
Proof.
  apply (normalization_is_idempotent "health" "/ready" Fixture.health_ready).
  reflexivity.
Defined.

Lemma paths_stay_normalized_witness :
  livenessPath
    (operate_all Fixture.health_ready
       [UseLogger (Some Fixture.stderr); Register (Liveness "self" None);
        FailFast true; Register (Readiness "db" None); UseLogger None;
        FailFast false])
    = livenessPath Fixture.health_ready ∧
  readinessPath
    (operate_all Fixture.health_ready
       [UseLogger (Some Fixture.stderr); Register (Liveness "self" None);
        FailFast true; Register (Readiness "db" None); UseLogger None;
        FailFast false])
    = readinessPath Fixture.health_ready ∧
  starts_with_slash
    (livenessPath
       (operate_all Fixture.health_ready
          [UseLogger (Some Fixture.stderr); Register (Liveness "self" None);
           FailFast true; Register (Readiness "db" None); UseLogger None;
           FailFast false])) ∧
  starts_with_slash
    (readinessPath
       (operate_all Fixture.health_ready
          [UseLogger (Some Fixture.stderr); Register (Liveness "self" None);
           FailFast true; Register (Readiness "db" None); UseLogger None;
           FailFast false])).
Proof.
  apply (paths_stay_normalized "health" "/ready" Fixture.health_ready
           [UseLogger (Some Fixture.stderr); Register (Liveness "self" None);
            FailFast true; Register (Readiness "db" None); UseLogger None;
            FailFast false]).
  reflexivity.
Defined.

Lemma last_logger_option_wins_witness :
  ∃ ch' : @checksHandler (gmap string nat),
    NewChecksHandlerWithOptions "health" "/ready"
      (WithLogger <$> [None; Some {| Out := Sink 7 |}; Some Fixture.stderr])
      = Returned ch' ∧
    logger ch'
      = default None
          (last [None; Some {| Out := Sink 7 |}; Some Fixture.stderr]) ∧
    livenessPath ch' = livenessPath Fixture.health_ready ∧
    readinessPath ch' = readinessPath Fixture.health_ready ∧
    livenessChecks ch' = ∅ ∧ readinessChecks ch' = ∅ ∧
    failFast ch' = false.
Proof.
  apply (last_logger_option_wins "health" "/ready" Fixture.health_ready
           [None; Some {| Out := Sink 7 |}; Some Fixture.stderr]).
  reflexivity.
Defined.

Lemma last_registration_wins_witness :
  active
    (register_all Fixture.fresh
       ([Liveness "db" None; Readiness "db" None]
          ++ registration_in HealthEndpoint "db" (Some Fixture.refused)
          :: [Readiness "db" None; Liveness "self" None]))
    HealthEndpoint !! "db" = Some (Some Fixture.refused).
Proof.
  apply (last_registration_wins Fixture.fresh HealthEndpoint
           [Liveness "db" None; Readiness "db" None]
           [Readiness "db" None; Liveness "self" None]
           "db" (Some Fixture.refused)).
  intros c' Hin. simpl in Hin.
  apply elem_of_cons in Hin as [Hin|Hin]; [discriminate|].
  apply list_elem_of_singleton in Hin. discriminate.
Defined.

Lemma Handler_returned_router_witness :
  readinessPath Fixture.fresh ≠ "" ∧ livenessPath Fixture.fresh ≠ "" ∧
  livenessPath Fixture.fresh ≠ readinessPath Fixture.fresh ∧
  Fixture.routed = <[livenessPath Fixture.fresh := HealthEndpoint]>
                     {[readinessPath Fixture.fresh := ReadyEndpoint]} ∧
  Fixture.routed !! livenessPath Fixture.fresh = Some HealthEndpoint ∧
  Fixture.routed !! readinessPath Fixture.fresh = Some ReadyEndpoint ∧
  size Fixture.routed = 2%nat.
Proof.
  apply (Handler_returned_router Fixture.fresh Fixture.routed).
  reflexivity.
Defined.

Lemma RegisterHandler_twice_panics_witness :
  (∅ : gmap string endpoint) !! readinessPath Fixture.fresh = None ∧
  (∅ : gmap string endpoint) !! livenessPath Fixture.fresh = None ∧
  Fixture.routed !! livenessPath Fixture.fresh = Some HealthEndpoint ∧
  Fixture.routed !! readinessPath Fixture.fresh = Some ReadyEndpoint ∧
  (∀ pattern, pattern ≠ livenessPath Fixture.fresh →
     pattern ≠ readinessPath Fixture.fresh →
     Fixture.routed !! pattern = (∅ : gmap string endpoint) !! pattern) ∧
  panics (RegisterHandler Fixture.fresh Fixture.routed).1.
Proof.
  apply (RegisterHandler_twice_panics Fixture.fresh ∅ Fixture.routed).
  reflexivity.
Defined.

Lemma nonempty_paths_are_normalized_witness :
  ∃ ch : @checksHandler (gmap string nat),
    newChecksHandler "health" "/ready" = Returned ch ∧
    livenessPath ch
      = (if decide (String.get 0 "health" = Some "/"%char)
         then "health" else "/" +:+ "health") ∧
    readinessPath ch
      = (if decide (String.get 0 "/ready" = Some "/"%char)
         then "/ready" else "/" +:+ "/ready") ∧
    starts_with_slash (livenessPath ch) ∧
    starts_with_slash (readinessPath ch) ∧
    livenessChecks ch = ∅ ∧ readinessChecks ch = ∅ ∧
    failFast ch = false ∧ logger ch = None.
Proof.
  apply (nonempty_paths_are_normalized "health" "/ready").
  - discriminate.
  - discriminate.
Defined.
